(** * photo_scoop: layout geometry of the images-to-PDF scripts

    A shallow embedding of the three layout scripts
    [images_to_pdf_v1.py] (flow layout), [images_to_pdf_v2.py] (grid layout)
    and [images_to_pdf_v3.py] (spiral layout), followed by the properties of
    the layouts they compute.

    Numbers.  Python [int]s are [Z] (or [nat] where the value is a length or
    a list index); Python [float]s are modelled by exact rationals [Q], the
    usual idealisation of floating point: every statement below is about the
    arithmetic the scripts write down, not about rounding.

    Files.  A directory entry is a record carrying the attributes that the
    scripts read from a [pathlib.Path] ([name], [suffix], [is_file]) and what
    the two external collaborators answer for it: [size] is the result of
    [Image.open(p).size] ([None] when opening raises), [draw_ok] tells whether
    [ImageReader]/[drawImage] succeed on it.

    Effects.  The calls made on the PDF canvas and the console lines printed
    by [create_pdf_from_images] and [main] form a trace of [event]s, in
    program order.  The diagnostic lines printed inside the layout helpers
    ([calculate_image_dimensions] prints exactly when it returns [None]) are
    not part of the trace. *)

From Stdlib Require Import Ascii String.
From Stdlib Require Import ZArith QArith Qminmax Lia Lqa List Bool Arith.
Import ListNotations.

Local Open Scope Q_scope.

(** * Part I: the programs *)

(** ** Numbers *)

Definition Qltb (x y : Q) : bool := (Qnum x * QDen y <? Qnum y * QDen x)%Z.

Definition N2Q (n : N) : Q := inject_Z (Z.of_N n).
Definition nat2Q (n : nat) : Q := inject_Z (Z.of_nat n).

(** [sum(...)], [max(...)] and [min(...)] over a generator.  [max] and [min]
    keep the first extremal element; the scripts only call them on non-empty
    sequences (on an empty one Python raises [ValueError]). *)
Definition Qsum (l : list Q) : Q := fold_left Qplus l 0.

Definition Qmaximum (l : list Q) : Q :=
  match l with
  | [] => 0
  | a :: t => fold_left Qmax t a
  end.

Definition Zminimum (l : list Z) : Z :=
  match l with
  | [] => 0%Z
  | a :: t => fold_left Z.min t a
  end.

Definition Zmaximum (l : list Z) : Z :=
  match l with
  | [] => 0%Z
  | a :: t => fold_left Z.max t a
  end.

(** [enumerate(l)] *)
Definition enumerate {A : Type} (l : list A) : list (nat * A) :=
  combine (seq 0 (length l)) l.

(** ** Directory entries and images *)

Record file : Type := mkFile {
  name    : string;            (* [Path.name] *)
  suffix  : string;            (* [Path.suffix] *)
  is_file : bool;              (* [Path.is_file()] *)
  size    : option (N * N);    (* [Image.open(p).size], [None] if it raises *)
  draw_ok : bool               (* [ImageReader(p)] and [drawImage] succeed *)
}.

(** [MARGIN = 36] *)
Definition MARGIN : Q := 36.

(** Modelled from the spec: the page size constant [A4] of the PDF library
    (imported, not defined in the scripts); the spec gives 595.27 x 841.89
    points.  The programs below take the page size as a parameter [A4]. *)
Definition A4_points : Q * Q := (59527 # 100, 84189 # 100).

(** [SUPPORTED_FORMATS] *)
Definition SUPPORTED_FORMATS : list string :=
  [".jpg"; ".jpeg"; ".png"; ".gif"; ".bmp"; ".tiff"; ".tif"; ".webp"]%string.

(** [str.lower()] on ASCII text *)
Definition lower_ascii (c : ascii) : ascii :=
  let n := nat_of_ascii c in
  if ((65 <=? n) && (n <=? 90))%nat then ascii_of_nat (n + 32) else c.

Fixpoint lower (s : string) : string :=
  match s with
  | EmptyString => EmptyString
  | String c t => String (lower_ascii c) (lower t)
  end.

(** [list.sort(key=...)]: a stable insertion of each element behind the
    elements whose key is not greater. *)
Fixpoint insert_by_name (x : file) (l : list file) : list file :=
  match l with
  | [] => [x]
  | y :: t =>
      if String.ltb (lower (name x)) (lower (name y)) then x :: y :: t
      else y :: insert_by_name x t
  end.

Definition sort_by_name (l : list file) : list file :=
  fold_left (fun acc x => insert_by_name x acc) l [].

(** [get_image_files]: the folder is [None] when it does not exist
    ([FileNotFoundError]), otherwise the entries [folder.iterdir()] yields. *)
Definition get_image_files (folder : option (list file)) : option (list file) :=
  match folder with
  | None => None
  | Some entries =>
      let image_files :=
        filter (fun file_path =>
                  is_file file_path &&
                  existsb (String.eqb (lower (suffix file_path))) SUPPORTED_FORMATS)
               entries in
      Some (sort_by_name image_files)
  end.

(** ** [calculate_image_dimensions] (identical in the three scripts)

    The [try] block raises when [Image.open] fails and also when a ratio
    divides by a zero pixel dimension ([ZeroDivisionError]); both are caught
    by [except Exception] and give [(None, None, None)]. *)
Definition calculate_image_dimensions (img_path : file) (max_width max_height : Q)
  : option (Q * Q * Q) :=
  match size img_path with
  | None => None
  | Some (orig_width, orig_height) =>
      if (orig_width =? 0)%N then None
      else if (orig_height =? 0)%N then None
      else
        let width_ratio := max_width / N2Q orig_width in
        let height_ratio := max_height / N2Q orig_height in
        let scale_factor := Qmin width_ratio height_ratio in
        let new_width := N2Q orig_width * scale_factor in
        let new_height := N2Q orig_height * scale_factor in
        Some (new_width, new_height, scale_factor)
  end.

(** ** Traces *)

Inductive message : Type :=
| NoImageFilesFound                 (* "No image files found." *)
| FoundImageFiles (n : nat)         (* "Found {n} image files" *)
| CreatingPdf                       (* "Creating PDF: ..." *)
| ProcessingPage (page_num : nat)   (* "Processing page {page_num}..." *)
| Added (f : string)                (* "  Added: {name}" *)
| ErrorAdding (f : string)          (* "  Error adding {name}: ..." *)
| PdfCreated                        (* "PDF created successfully: ..." *)
| TotalPages (page_num : nat)       (* "Total pages: {page_num}" *)
| ImagesAdded (added total : nat)   (* "Images added: {added}/{total} on 1 page" *)
| NoteManyImages (n : nat)          (* the two-line note for more than 25 images *)
| NoSupportedImageFiles             (* "No supported image files found in: ..." *)
| SupportedFormatsAre               (* "Supported formats: ..." *)
| ErrorLine.                        (* "Error: ..." *)

Inductive event : Type :=
| Print (m : message)
| NewCanvas                               (* [canvas.Canvas(output, pagesize=A4)] *)
| DrawImage (img : file) (x y width height : Q)   (* a [drawImage] that succeeded *)
| ShowPage                                (* [c.showPage()] *)
| Save.                                   (* [c.save()] *)

(** A rectangle on the page: lower-left corner and extent. *)
Record rect : Type := mkRect { rx : Q; ry : Q; rw : Q; rh : Q }.

(** The rectangles drawn by a trace, split into pages at each [ShowPage]. *)
Fixpoint pages_of (tr : list event) : list (list rect) :=
  match tr with
  | [] => [[]]
  | e :: tr' =>
      match e, pages_of tr' with
      | DrawImage _ x y w h, p :: ps => (mkRect x y w h :: p) :: ps
      | ShowPage, ps => [] :: ps
      | _, ps => ps
      end
  end.

(** The calls made on the canvas, as opposed to console lines *)
Definition is_canvas_call (e : event) : bool :=
  match e with Print _ => false | _ => true end.

(** [main] is the same text in the three scripts, up to the
    [create_pdf_from_images] it calls.  It yields the trace and the exit
    status of the process. *)
Definition main_with (create_pdf_from_images : list file -> list event)
  (folder : option (list file)) : list event * Z :=
  match get_image_files folder with
  | None => ([Print ErrorLine], 1%Z)                  (* [sys.exit(1)] *)
  | Some image_files =>
      match image_files with
      | [] => ([Print NoSupportedImageFiles; Print SupportedFormatsAre], 0%Z)
      | _ => (create_pdf_from_images image_files, 0%Z)
      end
  end.

(** ** Grid layout: [images_to_pdf_v2.py] *)
Module Grid.

(** [math.ceil(math.sqrt(n))] for an integer [n >= 0] *)
Definition ceil_sqrt (n : Z) : Z :=
  let r := Z.sqrt n in if (r * r =? n)%Z then r else (r + 1)%Z.

(** [math.ceil(n / d)] for integers [n] and [d > 0] *)
Definition ceil_div (n d : Z) : Z := (- ((- n) / d))%Z.

(** [calculate_grid_layout]: [(rows, cols)] *)
Definition calculate_grid_layout (num_images : Z) : Z * Z :=
  if (num_images =? 1)%Z then (1, 1)%Z
  else if (num_images =? 2)%Z then (1, 2)%Z
  else if (num_images <=? 4)%Z then (2, 2)%Z
  else if (num_images <=? 6)%Z then (2, 3)%Z
  else if (num_images <=? 9)%Z then (3, 3)%Z
  else if (num_images <=? 12)%Z then (3, 4)%Z
  else if (num_images <=? 16)%Z then (4, 4)%Z
  else if (num_images <=? 20)%Z then (4, 5)%Z
  else if (num_images <=? 25)%Z then (5, 5)%Z
  else
    let cols := ceil_sqrt num_images in
    let rows := ceil_div num_images cols in
    (rows, cols).

(** An entry of [arranged_images] *)
Record placement : Type := mkPlacement {
  path : file; x : Q; y : Q; width : Q; height : Q; scale : Q
}.

Definition spacing : Z := 5.

(** The body of the [for i, img_path in enumerate(image_files)] loop *)
Definition place (cols : Z) (cell_width cell_height available_height : Q)
  (arranged_images : list placement) (i : nat) (img_path : file) : list placement :=
  let row := (Z.of_nat i / cols)%Z in
  let col := (Z.of_nat i mod cols)%Z in
  let x := inject_Z col * (cell_width + inject_Z spacing) in
  let y := available_height - inject_Z (row + 1) * cell_height
           - inject_Z (row * spacing) in
  match calculate_image_dimensions img_path cell_width cell_height with
  | Some (width, height, scale) =>
      let cell_center_x := x + cell_width / 2 in
      let cell_center_y := y + cell_height / 2 in
      let final_x := cell_center_x - width / 2 in
      let final_y := cell_center_y - height / 2 in
      arranged_images ++ [mkPlacement img_path final_x final_y width height scale]
  | None => arranged_images
  end.

(** [arrange_all_images_on_single_page] *)
Definition arrange_all_images_on_single_page
  (image_files : list file) (available_width available_height : Q) : list placement :=
  let num_images := length image_files in
  if (num_images =? 0)%nat then []
  else
    let '(rows, cols) := calculate_grid_layout (Z.of_nat num_images) in
    let total_spacing_width := ((cols - 1) * spacing)%Z in
    let total_spacing_height := ((rows - 1) * spacing)%Z in
    let cell_width := (available_width - inject_Z total_spacing_width) / inject_Z cols in
    let cell_height := (available_height - inject_Z total_spacing_height) / inject_Z rows in
    fold_left (fun arranged_images '(i, img_path) =>
                 place cols cell_width cell_height available_height
                       arranged_images i img_path)
              (enumerate image_files) [].

(** The drawing loop of [create_pdf_from_images]: the trace and [added_count] *)
Fixpoint draw_images (arranged_images : list placement) (added_count : nat)
  : list event * nat :=
  match arranged_images with
  | [] => ([], added_count)
  | img_info :: rest =>
      if draw_ok (path img_info) then
        let '(tr, n) := draw_images rest (S added_count) in
        (DrawImage (path img_info) (MARGIN + x img_info) (MARGIN + y img_info)
                   (width img_info) (height img_info)
           :: Print (Added (name (path img_info))) :: tr, n)
      else
        let '(tr, n) := draw_images rest added_count in
        (Print (ErrorAdding (name (path img_info))) :: tr, n)
  end.

(** [create_pdf_from_images] *)
Definition create_pdf_from_images (A4 : Q * Q) (image_files : list file) : list event :=
  match image_files with
  | [] => [Print NoImageFilesFound]
  | _ =>
      let '(A4_WIDTH, A4_HEIGHT) := A4 in
      let available_width := A4_WIDTH - 2 * MARGIN in
      let available_height := A4_HEIGHT - 2 * MARGIN in
      let arranged_images :=
        arrange_all_images_on_single_page image_files available_width available_height in
      let '(drawn, added_count) := draw_images arranged_images 0 in
      [Print (FoundImageFiles (length image_files)); Print CreatingPdf; NewCanvas]
        ++ drawn
        ++ [Save; Print PdfCreated; Print (ImagesAdded added_count (length image_files))]
        ++ (if (25 <? length image_files)%nat
            then [Print (NoteManyImages (length image_files))] else [])
  end.

Definition main (A4 : Q * Q) := main_with (create_pdf_from_images A4).

End Grid.

(** ** Spiral layout: [images_to_pdf_v3.py] *)
Module Spiral.

(** The [for i in range(1, num_images)] loop of [generate_spiral_positions];
    [n] is the number of iterations still to run. *)
Fixpoint spiral_loop (n : nat)
  (x y dx dy steps_in_direction steps_taken direction_changes : Z)
  (positions : list (Z * Z)) : list (Z * Z) :=
  match n with
  | O => positions
  | S n' =>
      let x := (x + dx)%Z in
      let y := (y + dy)%Z in
      let positions := positions ++ [(x, y)] in
      let steps_taken := (steps_taken + 1)%Z in
      if (steps_taken =? steps_in_direction)%Z then
        let '(dx, dy) := ((- dy)%Z, dx) in
        let direction_changes := (direction_changes + 1)%Z in
        let steps_taken := 0%Z in
        if (direction_changes mod 2 =? 0)%Z then
          spiral_loop n' x y dx dy (steps_in_direction + 1)%Z steps_taken
                      direction_changes positions
        else
          spiral_loop n' x y dx dy steps_in_direction steps_taken
                      direction_changes positions
      else
        spiral_loop n' x y dx dy steps_in_direction steps_taken
                    direction_changes positions
  end.

(** [generate_spiral_positions]; [range(1, num_images)] runs
    [max(0, num_images - 1)] times. *)
Definition generate_spiral_positions (num_images : Z) : list (Z * Z) :=
  if (num_images =? 0)%Z then []
  else
    let positions := [(0, 0)%Z] in
    if (num_images =? 1)%Z then positions
    else spiral_loop (Z.to_nat (num_images - 1)) 0 0 1 0 1 0 0 positions.

(** [calculate_spiral_dimensions]: [(cell_size, positions)].  For
    [num_images == 0] the script returns the pair [0, 0]; the second
    component is rendered here as the empty list. *)
Definition calculate_spiral_dimensions (num_images : Z)
  (available_width available_height : Q) : Q * list (Z * Z) :=
  if (num_images =? 0)%Z then (0, [])
  else
    let positions := generate_spiral_positions num_images in
    let min_x := Zminimum (map fst positions) in
    let max_x := Zmaximum (map fst positions) in
    let min_y := Zminimum (map snd positions) in
    let max_y := Zmaximum (map snd positions) in
    let grid_width := (max_x - min_x + 1)%Z in
    let grid_height := (max_y - min_y + 1)%Z in
    let cell_width := available_width / inject_Z grid_width in
    let cell_height := available_height / inject_Z grid_height in
    let cell_size := Qmin cell_width cell_height in
    (cell_size, positions).

(** An entry of [arranged_images] *)
Record placement : Type := mkPlacement {
  path : file; x : Q; y : Q; width : Q; height : Q; scale : Q; cell_size : Q
}.

(** The [for i, img_path in enumerate(image_files)] loop of
    [arrange_all_images_on_single_page], with its [break]. *)
Fixpoint arrange_loop (cell_size offset_x offset_y : Q) (positions : list (Z * Z))
  (todo : list (nat * file)) (arranged_images : list placement) : list placement :=
  match todo with
  | [] => arranged_images
  | (i, img_path) :: rest =>
      match nth_error positions i with
      | None => arranged_images                       (* [i >= len(positions)]: break *)
      | Some (grid_x, grid_y) =>
          let x := offset_x + inject_Z grid_x * cell_size in
          let y := offset_y + inject_Z grid_y * cell_size in
          match calculate_image_dimensions img_path cell_size cell_size with
          | Some (width, height, scale) =>
              let cell_center_x := x + cell_size / 2 in
              let cell_center_y := y + cell_size / 2 in
              let final_x := cell_center_x - width / 2 in
              let final_y := cell_center_y - height / 2 in
              arrange_loop cell_size offset_x offset_y positions rest
                (arranged_images ++
                   [mkPlacement img_path final_x final_y width height scale cell_size])
          | None =>
              arrange_loop cell_size offset_x offset_y positions rest arranged_images
          end
      end
  end.

(** The offsets that place the spiral on the page *)
Definition spiral_offsets (cell_size : Q) (positions : list (Z * Z))
  (available_width available_height : Q) : Q * Q :=
  let min_x := Zminimum (map fst positions) in
  let max_x := Zmaximum (map fst positions) in
  let min_y := Zminimum (map snd positions) in
  let max_y := Zmaximum (map snd positions) in
  let spiral_width := inject_Z (max_x - min_x + 1) * cell_size in
  let spiral_height := inject_Z (max_y - min_y + 1) * cell_size in
  let offset_x := (available_width - spiral_width) / 2 - inject_Z min_x * cell_size in
  let offset_y := (available_height - spiral_height) / 2 - inject_Z min_y * cell_size in
  (offset_x, offset_y).

(** [arrange_all_images_on_single_page] *)
Definition arrange_all_images_on_single_page
  (image_files : list file) (available_width available_height : Q) : list placement :=
  let num_images := length image_files in
  if (num_images =? 0)%nat then []
  else
    let '(cell_size, positions) :=
      calculate_spiral_dimensions (Z.of_nat num_images) available_width available_height in
    let '(offset_x, offset_y) :=
      spiral_offsets cell_size positions available_width available_height in
    arrange_loop cell_size offset_x offset_y positions (enumerate image_files) [].

(** The drawing loop of [create_pdf_from_images]: the trace and [added_count] *)
Fixpoint draw_images (arranged_images : list placement) (added_count : nat)
  : list event * nat :=
  match arranged_images with
  | [] => ([], added_count)
  | img_info :: rest =>
      if draw_ok (path img_info) then
        let '(tr, n) := draw_images rest (S added_count) in
        (DrawImage (path img_info) (MARGIN + x img_info) (MARGIN + y img_info)
                   (width img_info) (height img_info)
           :: Print (Added (name (path img_info))) :: tr, n)
      else
        let '(tr, n) := draw_images rest added_count in
        (Print (ErrorAdding (name (path img_info))) :: tr, n)
  end.

(** [create_pdf_from_images] *)
Definition create_pdf_from_images (A4 : Q * Q) (image_files : list file) : list event :=
  match image_files with
  | [] => [Print NoImageFilesFound]
  | _ =>
      let '(A4_WIDTH, A4_HEIGHT) := A4 in
      let available_width := A4_WIDTH - 2 * MARGIN in
      let available_height := A4_HEIGHT - 2 * MARGIN in
      let arranged_images :=
        arrange_all_images_on_single_page image_files available_width available_height in
      let '(drawn, added_count) := draw_images arranged_images 0 in
      [Print (FoundImageFiles (length image_files)); Print CreatingPdf; NewCanvas]
        ++ drawn
        ++ [Save; Print PdfCreated; Print (ImagesAdded added_count (length image_files))]
        ++ (if (25 <? length image_files)%nat
            then [Print (NoteManyImages (length image_files))] else [])
  end.

Definition main (A4 : Q * Q) := main_with (create_pdf_from_images A4).

End Spiral.

(** ** Flow layout: [images_to_pdf_v1.py] *)
Module Flow.

(** An entry of [row_images] *)
Record img_info : Type := mkInfo {
  path : file; width : Q; height : Q; scale : Q
}.

(** The inner [while] loop of [arrange_images_on_page], which fills one row.
    Every iteration that does not leave the loop advances [current_idx], so
    [fuel = len(image_files) - current_idx] iterations are enough.  The result
    is the final [(row_images, row_height, remaining_width, current_idx)]. *)
Fixpoint fill_row (fuel : nat) (image_files : list file)
  (available_width available_height remaining_height : Q)
  (row_images : list img_info) (row_height remaining_width : Q) (current_idx : nat)
  : list img_info * Q * Q * nat :=
  match fuel with
  | O => (row_images, row_height, remaining_width, current_idx)
  | S fuel' =>
      if (current_idx <? length image_files)%nat && Qltb 50 remaining_width then
        match nth_error image_files current_idx with
        | None => (row_images, row_height, remaining_width, current_idx)
        | Some img_path =>
            let max_img_width := Qmin remaining_width (available_width * (8 # 10)) in
            let max_img_height := Qmin remaining_height (available_height * (6 # 10)) in
            match calculate_image_dimensions img_path max_img_width max_img_height with
            | None =>
                fill_row fuel' image_files available_width available_height
                         remaining_height row_images row_height remaining_width
                         (current_idx + 1)
            | Some (width, height, scale) =>
                if Qle_bool width remaining_width then
                  fill_row fuel' image_files available_width available_height
                           remaining_height
                           (row_images ++ [mkInfo img_path width height scale])
                           (Qmax row_height height)
                           (remaining_width - (width + 10))
                           (current_idx + 1)
                else (row_images, row_height, remaining_width, current_idx)  (* break *)
            end
        end
      else (row_images, row_height, remaining_width, current_idx)
  end.

(** The outer [while] loop of [arrange_images_on_page], which stacks rows.
    The result is the final [(page_images, remaining_height, current_idx)]. *)
Fixpoint fill_page (fuel : nat) (image_files : list file)
  (available_width available_height : Q)
  (page_images : list (list img_info)) (remaining_height : Q) (current_idx : nat)
  : list (list img_info) * Q * nat :=
  match fuel with
  | O => (page_images, remaining_height, current_idx)
  | S fuel' =>
      if (current_idx <? length image_files)%nat && Qltb 50 remaining_height then
        let '(row_images, row_height, _, current_idx) :=
          fill_row (length image_files - current_idx) image_files
                   available_width available_height remaining_height
                   [] 0 available_width current_idx in
        match row_images with
        | _ :: _ =>
            if Qle_bool row_height remaining_height then
              fill_page fuel' image_files available_width available_height
                        (page_images ++ [row_images])
                        (remaining_height - (row_height + 10))
                        current_idx
            else (page_images, remaining_height, current_idx)          (* break *)
        | [] => (page_images, remaining_height, current_idx)           (* break *)
        end
      else (page_images, remaining_height, current_idx)
  end.

(** [arrange_images_on_page]: [(page_images, current_idx)] *)
Definition arrange_images_on_page (image_files : list file) (start_idx : nat)
  (available_width available_height : Q) : list (list img_info) * nat :=
  let '(page_images, _, current_idx) :=
    fill_page (S (length image_files - start_idx)) image_files
              available_width available_height [] available_height start_idx in
  (page_images, current_idx).

(** [for img_info in row]: draws one row from [current_x] on *)
Fixpoint draw_row (row : list img_info) (current_x current_y row_height : Q)
  : list event :=
  match row with
  | [] => []
  | img_info :: rest =>
      let img_y := current_y + (row_height - height img_info) / 2 in
      if draw_ok (path img_info) then
        DrawImage (path img_info) current_x img_y (width img_info) (height img_info)
          :: Print (Added (name (path img_info)))
          :: draw_row rest (current_x + (width img_info + 10)) current_y row_height
      else
        Print (ErrorAdding (name (path img_info)))
          :: draw_row rest current_x current_y row_height
  end.

(** [for row in page_images]: draws the rows downwards from [current_y] *)
Fixpoint draw_rows (page_images : list (list img_info)) (available_width current_y : Q)
  : list event :=
  match page_images with
  | [] => []
  | row :: rest =>
      let row_width :=
        Qsum (map width row) + inject_Z ((Z.of_nat (length row) - 1) * 10) in
      let start_x := MARGIN + (available_width - row_width) / 2 in
      let row_height := Qmaximum (map height row) in
      let current_y := current_y - row_height in
      draw_row row start_x current_y row_height
        ++ draw_rows rest available_width (current_y - 10)
  end.

(** The page drawn when no image fitted: the single image at [current_idx] *)
Definition draw_single (img_path : file) (available_width available_height : Q)
  : list event :=
  match calculate_image_dimensions img_path available_width available_height with
  | Some (width, height, scale) =>
      let x := MARGIN + (available_width - width) / 2 in
      let y := MARGIN + (available_height - height) / 2 in
      if draw_ok img_path then
        [DrawImage img_path x y width height; Print (Added (name img_path))]
      else [Print (ErrorAdding (name img_path))]
  | None => []
  end.

(** The [while current_idx < len(image_files)] loop of
    [create_pdf_from_images]: the trace and the final [page_num]. *)
Fixpoint pdf_loop (fuel : nat) (image_files : list file)
  (A4_HEIGHT available_width available_height : Q) (current_idx page_num : nat)
  : list event * nat :=
  match fuel with
  | O => ([], page_num)
  | S fuel' =>
      if (current_idx <? length image_files)%nat then
        let '(page_images, next_idx) :=
          arrange_images_on_page image_files current_idx
                                 available_width available_height in
        let '(page_trace, current_idx) :=
          match page_images with
          | [] =>
              (match nth_error image_files current_idx with
               | Some img_path => draw_single img_path available_width available_height
               | None => []
               end, (current_idx + 1)%nat)
          | _ :: _ =>
              (draw_rows page_images available_width (A4_HEIGHT - MARGIN), next_idx)
          end in
        if (current_idx <? length image_files)%nat then
          let '(tr, n) := pdf_loop fuel' image_files A4_HEIGHT
                                   available_width available_height
                                   current_idx (page_num + 1) in
          (Print (ProcessingPage page_num) :: page_trace ++ ShowPage :: tr, n)
        else
          let '(tr, n) := pdf_loop fuel' image_files A4_HEIGHT
                                   available_width available_height
                                   current_idx page_num in
          (Print (ProcessingPage page_num) :: page_trace ++ tr, n)
      else ([], page_num)
  end.

(** [create_pdf_from_images] *)
Definition create_pdf_from_images (A4 : Q * Q) (image_files : list file) : list event :=
  match image_files with
  | [] => [Print NoImageFilesFound]
  | _ =>
      let '(A4_WIDTH, A4_HEIGHT) := A4 in
      let available_width := A4_WIDTH - 2 * MARGIN in
      let available_height := A4_HEIGHT - 2 * MARGIN in
      let '(tr, page_num) :=
        pdf_loop (length image_files) image_files A4_HEIGHT
                 available_width available_height 0 1 in
      [Print (FoundImageFiles (length image_files)); Print CreatingPdf; NewCanvas]
        ++ tr
        ++ [Save; Print PdfCreated; Print (TotalPages page_num)]
  end.

Definition main (A4 : Q * Q) := main_with (create_pdf_from_images A4).

End Flow.

(** * Part II: properties *)

(** ** Rationals *)

Lemma Qltb_lt (x y : Q) : Qltb x y = true <-> x < y.
Proof. unfold Qltb, Qlt. apply Z.ltb_lt. Qed.

Lemma Qltb_ge (x y : Q) : Qltb x y = false <-> y <= x.
Proof. unfold Qltb, Qle. rewrite Z.ltb_ge. reflexivity. Qed.

Lemma N2Q_pos (n : N) : n <> 0%N -> 0 < N2Q n.
Proof.
  intro H. unfold N2Q. change 0 with (inject_Z 0). rewrite <- Zlt_Qlt. lia.
Qed.

Lemma nat2Q_S (n : nat) : nat2Q (S n) == nat2Q n + 1.
Proof.
  unfold nat2Q. rewrite Nat2Z.inj_succ, <- Z.add_1_r, inject_Z_plus. reflexivity.
Qed.

Lemma nat2Q_le (a b : nat) : (a <= b)%nat -> nat2Q a <= nat2Q b.
Proof. intro H. unfold nat2Q. rewrite <- Zle_Qle. lia. Qed.

Lemma inject_Z_pos (z : Z) : (0 < z)%Z -> 0 < inject_Z z.
Proof. intro H. change 0 with (inject_Z 0). rewrite <- Zlt_Qlt. exact H. Qed.

Lemma inject_Z_sub (a b : Z) : inject_Z (a - b) == inject_Z a - inject_Z b.
Proof.
  unfold Z.sub. rewrite inject_Z_plus, inject_Z_opp. reflexivity.
Qed.

(** ** The fitted size *)

(** The dimension probe of a file succeeds. *)
Definition probe_ok (f : file) : bool :=
  match size f with
  | Some (w, h) => negb (w =? 0)%N && negb (h =? 0)%N
  | None => false
  end.

Lemma calculate_image_dimensions_None f mw mh :
  calculate_image_dimensions f mw mh = None <-> probe_ok f = false.
Proof.
  unfold calculate_image_dimensions, probe_ok.
  destruct (size f) as [[w h]|]; [|tauto].
  destruct (w =? 0)%N, (h =? 0)%N; simpl; split; congruence.
Qed.

Lemma calculate_image_dimensions_Some f mw mh w h s :
  calculate_image_dimensions f mw mh = Some (w, h, s) ->
  exists ow oh, size f = Some (ow, oh) /\ ow <> 0%N /\ oh <> 0%N /\
    s = Qmin (mw / N2Q ow) (mh / N2Q oh) /\
    w = N2Q ow * s /\ h = N2Q oh * s.
Proof.
  unfold calculate_image_dimensions.
  destruct (size f) as [[ow oh]|]; [|discriminate].
  destruct (N.eqb_spec ow 0); [discriminate|].
  destruct (N.eqb_spec oh 0); [discriminate|].
  intro H. injection H as <- <- <-. exists ow, oh. auto 10.
Qed.

Lemma probe_ok_Some f mw mh :
  probe_ok f = true ->
  exists w h s, calculate_image_dimensions f mw mh = Some (w, h, s).
Proof.
  intro H. destruct (calculate_image_dimensions f mw mh) as [[[w h] s]|] eqn:E.
  - eauto.
  - apply calculate_image_dimensions_None in E. congruence.
Qed.

Section Fit.
Variables (ow oh mw mh : Q).
Hypothesis (Hw : 0 < ow) (Hh : 0 < oh).

Let s := Qmin (mw / ow) (mh / oh).

Lemma fit_width_le : ow * s <= mw.
Proof.
  assert (E : ow * (mw / ow) == mw) by (field; lra).
  rewrite <- E. apply Qmult_le_l; [assumption|]. apply Q.le_min_l.
Qed.

Lemma fit_height_le : oh * s <= mh.
Proof.
  assert (E : oh * (mh / oh) == mh) by (field; lra).
  rewrite <- E. apply Qmult_le_l; [assumption|]. apply Q.le_min_r.
Qed.

Lemma fit_scale_pos : 0 < mw -> 0 < mh -> 0 < s.
Proof.
  intros H1 H2. unfold s. apply Q.min_glb_lt.
  - apply Qlt_shift_div_l; lra.
  - apply Qlt_shift_div_l; lra.
Qed.

Lemma fit_width_pos : 0 < mw -> 0 < mh -> 0 < ow * s.
Proof.
  intros H1 H2. pose proof (fit_scale_pos H1 H2).
  apply Qmult_lt_0_compat; assumption.
Qed.

Lemma fit_height_pos : 0 < mw -> 0 < mh -> 0 < oh * s.
Proof.
  intros H1 H2. pose proof (fit_scale_pos H1 H2).
  apply Qmult_lt_0_compat; assumption.
Qed.

(** No larger common scale factor fits the box. *)
Lemma fit_largest (s' : Q) : ow * s' <= mw -> oh * s' <= mh -> s' <= s.
Proof.
  intros H1 H2. unfold s. apply Q.min_glb.
  - apply Qle_shift_div_l; [assumption|]. lra.
  - apply Qle_shift_div_l; [assumption|]. lra.
Qed.

(** The fit touches the box in one direction. *)
Lemma fit_tight : ow * s == mw \/ oh * s == mh.
Proof.
  unfold s. destruct (Q.min_spec (mw / ow) (mh / oh)) as [[_ E]|[_ E]];
    rewrite E; [left|right]; field; lra.
Qed.
End Fit.

(** ** Grid layout: the choice of rows and columns *)

Lemma ceil_sqrt_spec (n : Z) :
  (1 <= n)%Z ->
  let c := Grid.ceil_sqrt n in
  (1 <= c /\ (c - 1) * (c - 1) < n <= c * c)%Z.
Proof.
  intros Hn c. subst c. unfold Grid.ceil_sqrt. cbv zeta.
  pose proof (Z.sqrt_spec n ltac:(lia)) as [Hlo Hhi].
  assert (0 <= Z.sqrt n)%Z by apply Z.sqrt_nonneg.
  unfold Z.succ in Hhi. set (r := Z.sqrt n) in *.
  destruct (Z.eqb_spec (r * r) n) as [E|E].
  - assert (1 <= r)%Z by nia. repeat split; nia.
  - repeat split; nia.
Qed.

Lemma ceil_div_spec (n d : Z) :
  (0 < d)%Z ->
  let r := Grid.ceil_div n d in
  ((r - 1) * d < n <= r * d)%Z.
Proof.
  intros Hd r. subst r. unfold Grid.ceil_div.
  pose proof (Z.div_mod (- n) d ltac:(lia)).
  pose proof (Z.mod_pos_bound (- n) d Hd). nia.
Qed.

(** The ceilings are determined by these bounds. *)
Lemma ceil_sqrt_unique (n c : Z) :
  (0 <= c)%Z -> ((c - 1) * (c - 1) < n <= c * c)%Z -> (1 <= n)%Z ->
  Grid.ceil_sqrt n = c.
Proof.
  intros Hc Hb Hn. pose proof (ceil_sqrt_spec n Hn) as [H1 H2]. nia.
Qed.

Lemma ceil_div_unique (n d r : Z) :
  (0 < d)%Z -> ((r - 1) * d < n <= r * d)%Z -> Grid.ceil_div n d = r.
Proof.
  intros Hd Hb. pose proof (ceil_div_spec n d Hd) as H. cbv zeta in H.
  destruct (Z.lt_trichotomy (Grid.ceil_div n d) r) as [L|[E|L]]; [|exact E|]; nia.
Qed.

Lemma grid_layout_covers (n : Z) :
  (1 <= n)%Z ->
  let '(rows, cols) := Grid.calculate_grid_layout n in
  (1 <= rows /\ 1 <= cols /\ n <= rows * cols < n + Z.max rows cols)%Z.
Proof.
  intro Hn. unfold Grid.calculate_grid_layout.
  repeat match goal with
         | |- context [(?a =? ?b)%Z] => destruct (Z.eqb_spec a b); [lia|]
         | |- context [(?a <=? ?b)%Z] => destruct (Z.leb_spec a b); [lia|]
         end.
  pose proof (ceil_sqrt_spec n Hn) as [Hc Hs].
  pose proof (ceil_div_spec n (Grid.ceil_sqrt n) ltac:(lia)) as Hr.
  cbv zeta in *. nia.
Qed.

(** C2: for every count N >= 1 the grid is chosen by the lookup table up to
    25 images and as cols = ceil(sqrt N), rows = ceil(N / cols) above; 30
    images give 5 rows of 6 columns; and the grid always has at least N cells
    and fewer than N + max(rows, cols). *)
Theorem calculate_grid_layout_spec (n : Z) :
  (1 <= n)%Z ->
  let '(rows, cols) := Grid.calculate_grid_layout n in
  (n = 1 -> (rows, cols) = (1, 1))%Z /\
  (n = 2 -> (rows, cols) = (1, 2))%Z /\
  (2 < n <= 4 -> (rows, cols) = (2, 2))%Z /\
  (4 < n <= 6 -> (rows, cols) = (2, 3))%Z /\
  (6 < n <= 9 -> (rows, cols) = (3, 3))%Z /\
  (9 < n <= 12 -> (rows, cols) = (3, 4))%Z /\
  (12 < n <= 16 -> (rows, cols) = (4, 4))%Z /\
  (16 < n <= 20 -> (rows, cols) = (4, 5))%Z /\
  (20 < n <= 25 -> (rows, cols) = (5, 5))%Z /\
  ((25 < n)%Z ->
     (* cols = ceil(sqrt n) *)
     (1 <= cols /\ (cols - 1) * (cols - 1) < n <= cols * cols)%Z /\
     (* rows = ceil(n / cols) *)
     ((rows - 1) * cols < n <= rows * cols)%Z) /\
  Grid.calculate_grid_layout 30 = (5, 6)%Z /\
  (n <= rows * cols)%Z /\
  (rows * cols < n + Z.max rows cols)%Z.
Proof.
  intro Hn. pose proof (grid_layout_covers n Hn) as Hcov.
  assert (H30 : Grid.calculate_grid_layout 30 = (5, 6)%Z) by reflexivity.
  pose proof (ceil_sqrt_spec n Hn) as Hs. cbv zeta in Hs.
  pose proof (ceil_div_spec n (Grid.ceil_sqrt n) ltac:(lia)) as Hr. cbv zeta in Hr.
  destruct (Grid.calculate_grid_layout n) as [rows cols] eqn:E.
  unfold Grid.calculate_grid_layout in E.
  repeat match type of E with
         | context [(?a =? ?b)%Z] => destruct (Z.eqb_spec a b)
         | context [(?a <=? ?b)%Z] => destruct (Z.leb_spec a b)
         end;
    injection E as <- <-;
    repeat match goal with
           | |- _ /\ _ => split
           | |- _ -> _ => intro
           end;
    try reflexivity; try lia; try exact H30.
Qed.

Lemma calculate_grid_layout_spec_witness :
  (1 <= 30)%Z /\
  (let '(rows, cols) := Grid.calculate_grid_layout 30 in
   (30 <= rows * cols)%Z /\ (rows * cols < 30 + Z.max rows cols)%Z).
Proof.
  split; [lia|].
  pose proof (calculate_grid_layout_spec 30 ltac:(lia)) as H.
  destruct (Grid.calculate_grid_layout 30) as [rows cols].
  split; apply H.
Defined.

(** ** Lists *)

Definition olist {A : Type} (o : option A) : list A :=
  match o with Some a => [a] | None => [] end.

Lemma fold_left_append {A B : Type} (g : B -> list A) (l : list B) (init : list A) :
  fold_left (fun acc b => acc ++ g b) l init = init ++ flat_map g l.
Proof.
  revert init. induction l as [|b l IH]; intro init; simpl.
  - now rewrite app_nil_r.
  - rewrite IH. now rewrite <- app_assoc.
Qed.

Lemma in_enumerate_from {A : Type} (l : list A) (s i : nat) (a : A) :
  In (i, a) (combine (seq s (length l)) l) <->
  (s <= i)%nat /\ nth_error l (i - s) = Some a.
Proof.
  revert s. induction l as [|b l IH]; intro s; simpl.
  - split; [tauto|]. intros [_ H]. destruct (i - s)%nat; discriminate.
  - rewrite IH. split.
    + intros [E|[L H]].
      * injection E as <- <-. rewrite Nat.sub_diag. split; [lia|reflexivity].
      * split; [lia|]. replace (i - s)%nat with (S (i - S s)) by lia. exact H.
    + intros [L H]. destruct (Nat.eq_dec s i) as [<-|Ne].
      * rewrite Nat.sub_diag in H. simpl in H. left. congruence.
      * right. split; [lia|].
        replace (i - s)%nat with (S (i - S s)) in H by lia. exact H.
Qed.

Lemma in_enumerate {A : Type} (l : list A) (i : nat) (a : A) :
  In (i, a) (enumerate l) <-> nth_error l i = Some a.
Proof.
  unfold enumerate. rewrite in_enumerate_from, Nat.sub_0_r.
  split; [tauto|]. intro H. split; [lia|exact H].
Qed.

(** ** Rectangles *)

(** [p] is a proper rectangle lying within [c]. *)
Definition inside (p c : rect) : Prop :=
  0 <= rw p /\ 0 <= rh p /\
  rx c <= rx p /\ rx p + rw p <= rx c + rw c /\
  ry c <= ry p /\ ry p + rh p <= ry c + rh c.

(** Two rectangles do not overlap (they may touch along an edge). *)
Definition disjoint (a b : rect) : Prop :=
  rx a + rw a <= rx b \/ rx b + rw b <= rx a \/
  ry a + rh a <= ry b \/ ry b + rh b <= ry a.

Lemma disjoint_inside (p q c d : rect) :
  inside p c -> inside q d -> disjoint c d -> disjoint p q.
Proof. unfold inside, disjoint. intros Hp Hq Hd. lra. Qed.

(** The rectangle of the given size centred in the cell [c], at the scale
    that [calculate_image_dimensions] gives for [c]'s extent. *)
Definition centered_fit (c : rect) (img : file) : option (rect * Q) :=
  match calculate_image_dimensions img (rw c) (rh c) with
  | Some (w, h, s) =>
      Some (mkRect (rx c + rw c / 2 - w / 2) (ry c + rh c / 2 - h / 2) w h, s)
  | None => None
  end.

Lemma centered_fit_inside (c : rect) (img : file) (r : rect) (s : Q) :
  0 < rw c -> 0 < rh c -> centered_fit c img = Some (r, s) -> inside r c.
Proof.
  intros Hw Hh. unfold centered_fit.
  destruct (calculate_image_dimensions img (rw c) (rh c)) as [[[w h] s']|] eqn:E;
    [|discriminate].
  intro H. injection H as <- <-.
  apply calculate_image_dimensions_Some in E.
  destruct E as (ow & oh & _ & Hw0 & Hh0 & -> & -> & ->).
  pose proof (N2Q_pos _ Hw0) as Pw. pose proof (N2Q_pos _ Hh0) as Ph.
  pose proof (fit_width_le (N2Q ow) (N2Q oh) (rw c) (rh c) Pw).
  pose proof (fit_height_le (N2Q ow) (N2Q oh) (rw c) (rh c) Ph).
  pose proof (fit_width_pos (N2Q ow) (N2Q oh) (rw c) (rh c) Pw Ph Hw Hh).
  pose proof (fit_height_pos (N2Q ow) (N2Q oh) (rw c) (rh c) Pw Ph Hw Hh).
  unfold inside; simpl.
  set (W := N2Q ow * Qmin (rw c / N2Q ow) (rh c / N2Q oh)) in *.
  set (H' := N2Q oh * Qmin (rw c / N2Q ow) (rh c / N2Q oh)) in *.
  assert (rw c / 2 == rw c * (1 # 2)) by (field).
  assert (rh c / 2 == rh c * (1 # 2)) by (field).
  assert (W / 2 == W * (1 # 2)) by (field).
  assert (H' / 2 == H' * (1 # 2)) by (field).
  lra.
Qed.

(** Pairwise property of a list: every earlier element against every later one *)
Definition pairwise {A : Type} (R : A -> A -> Prop) (l : list A) : Prop :=
  ForallOrdPairs R l.

(** Rectangles produced slot by slot, each inside the cell of its slot, are
    pairwise disjoint when the cells are. *)
Lemma slots_pairwise_disjoint {A : Type} (cell : nat -> rect)
  (slot : nat -> A -> option rect) (n : nat) :
  (forall i a r, (i < n)%nat -> slot i a = Some r -> inside r (cell i)) ->
  (forall i j, (i < j < n)%nat -> disjoint (cell i) (cell j)) ->
  forall (l : list A) (s : nat), (s + length l <= n)%nat ->
  pairwise disjoint
    (flat_map (fun '(i, a) => olist (slot i a)) (combine (seq s (length l)) l)) /\
  Forall (fun r => exists i, (s <= i < n)%nat /\ inside r (cell i))
    (flat_map (fun '(i, a) => olist (slot i a)) (combine (seq s (length l)) l)).
Proof.
  intros Hin Hdis. induction l as [|a l IH]; intros s Hs; simpl.
  - split; constructor.
  - simpl in Hs. destruct (IH (S s) ltac:(lia)) as [IH1 IH2].
    destruct (slot s a) as [r|] eqn:E; simpl.
    + pose proof (Hin s a r ltac:(lia) E) as Hr. split.
      * constructor; [|exact IH1].
        rewrite Forall_forall in IH2 |- *. intros q Hq.
        destruct (IH2 q Hq) as (j & Hj & Hqj).
        apply (disjoint_inside r q (cell s) (cell j) Hr Hqj).
        apply Hdis. lia.
      * constructor; [exists s; split; [lia|exact Hr]|].
        eapply Forall_impl; [|exact IH2]. simpl.
        intros q (j & Hj & Hqj). exists j. split; [lia|exact Hqj].
    + split; [exact IH1|].
      eapply Forall_impl; [|exact IH2]. simpl.
      intros q (j & Hj & Hqj). exists j. split; [lia|exact Hqj].
Qed.

(** ** Grid layout: cells and placements *)

(** Width and height of a grid cell for [n] images *)
Definition grid_cell_size (n : nat) (aw ah : Q) : Q * Q :=
  let '(rows, cols) := Grid.calculate_grid_layout (Z.of_nat n) in
  ((aw - inject_Z ((cols - 1) * Grid.spacing)) / inject_Z cols,
   (ah - inject_Z ((rows - 1) * Grid.spacing)) / inject_Z rows).

(** The cell of index [i] in the grid for [n] images: row [i / cols], column
    [i mod cols], rows counted from the top of the available area. *)
Definition grid_cell (n : nat) (aw ah : Q) (i : nat) : rect :=
  let '(rows, cols) := Grid.calculate_grid_layout (Z.of_nat n) in
  let '(cw, ch) := grid_cell_size n aw ah in
  let row := (Z.of_nat i / cols)%Z in
  let col := (Z.of_nat i mod cols)%Z in
  mkRect (inject_Z col * (cw + inject_Z Grid.spacing))
         (ah - inject_Z (row + 1) * ch - inject_Z (row * Grid.spacing))
         cw ch.

(** What the grid loop emits for index [i] *)
Definition grid_slot (n : nat) (aw ah : Q) (i : nat) (img : file)
  : option Grid.placement :=
  match centered_fit (grid_cell n aw ah i) img with
  | Some (r, s) => Some (Grid.mkPlacement img (rx r) (ry r) (rw r) (rh r) s)
  | None => None
  end.

Definition grid_rect (p : Grid.placement) : rect :=
  mkRect (Grid.x p) (Grid.y p) (Grid.width p) (Grid.height p).

Lemma grid_arrange_slots (l : list file) (aw ah : Q) :
  Grid.arrange_all_images_on_single_page l aw ah =
  flat_map (fun '(i, img) => olist (grid_slot (length l) aw ah i img)) (enumerate l).
Proof.
  unfold Grid.arrange_all_images_on_single_page.
  destruct (Nat.eqb_spec (length l) 0) as [E|E].
  - destruct l; [reflexivity|discriminate].
  - unfold grid_slot, grid_cell, grid_cell_size.
    destruct (Grid.calculate_grid_layout (Z.of_nat (length l))) as [rows cols].
    generalize (enumerate l) as el. intro el.
    rewrite <- (app_nil_l (flat_map _ el)).
    generalize (@nil Grid.placement) as init.
    induction el as [|[i img] el IH]; intro init; simpl.
    + now rewrite app_nil_r.
    + rewrite IH. unfold Grid.place, centered_fit. simpl.
      destruct (calculate_image_dimensions img _ _) as [[[w h] s]|]; simpl.
      * rewrite <- app_assoc. reflexivity.
      * reflexivity.
Qed.

Lemma grid_slot_path n aw ah i img p :
  grid_slot n aw ah i img = Some p -> Grid.path p = img.
Proof.
  unfold grid_slot. destruct (centered_fit _ img) as [[r s]|]; [|discriminate].
  intro H. injection H as <-. reflexivity.
Qed.

Lemma grid_arrange_in (l : list file) (aw ah : Q) (p : Grid.placement) :
  In p (Grid.arrange_all_images_on_single_page l aw ah) <->
  exists i img, nth_error l i = Some img /\ grid_slot (length l) aw ah i img = Some p.
Proof.
  rewrite grid_arrange_slots, in_flat_map. split.
  - intros ([i img] & Hin & Hp). apply in_enumerate in Hin.
    exists i, img. split; [exact Hin|].
    destruct (grid_slot _ _ _ i img); simpl in Hp; [|tauto].
    destruct Hp as [->|[]]. reflexivity.
  - intros (i & img & Hn & Hs). exists (i, img). split.
    + now apply in_enumerate.
    + rewrite Hs. now left.
Qed.

Lemma filter_slots_absent {P : Type} (path : P -> file)
  (slot : nat -> file -> option P)
  (Hpath : forall i img p, slot i img = Some p -> path p = img)
  (img : file) (l : list file) :
  ~ In (name img) (map name l) ->
  forall s : nat,
  filter (fun p => String.eqb (name (path p)) (name img))
         (flat_map (fun '(k, a) => olist (slot k a)) (combine (seq s (length l)) l))
  = [].
Proof.
  induction l as [|b l IHl]; intros Hnotin s.
  - reflexivity.
  - simpl. rewrite filter_app.
    rewrite IHl; [|intro H; apply Hnotin; right; exact H].
    rewrite app_nil_r. destruct (slot s b) as [p|] eqn:E; [|reflexivity].
    simpl. apply Hpath in E. rewrite E.
    destruct (String.eqb_spec (name b) (name img)) as [Eq|]; [|reflexivity].
    exfalso. apply Hnotin. left. exact Eq.
Qed.

(** Filtering the emitted placements by the name of the file at index [i]
    leaves what the loop emitted at [i], when names are unique. *)
Lemma filter_slots_by_name {P : Type} (path : P -> file)
  (slot : nat -> file -> option P)
  (Hpath : forall i img p, slot i img = Some p -> path p = img)
  (img : file) (l : list file) (s i : nat) :
  NoDup (map name l) -> nth_error l i = Some img ->
  filter (fun p => String.eqb (name (path p)) (name img))
         (flat_map (fun '(k, a) => olist (slot k a)) (combine (seq s (length l)) l))
  = olist (slot (s + i)%nat img).
Proof.
  revert s i. induction l as [|a l IH]; intros s i Hnd Hi.
  - destruct i; discriminate.
  - simpl. rewrite filter_app. inversion Hnd as [|? ? Hnotin Hnd']; subst.
    destruct i as [|i]; simpl in Hi.
    + injection Hi as ->. rewrite Nat.add_0_r.
      rewrite (filter_slots_absent path slot Hpath img l Hnotin (S s)), app_nil_r.
      destruct (slot s img) as [p|] eqn:E; [|reflexivity].
      simpl. apply Hpath in E. rewrite E, String.eqb_refl. reflexivity.
    + rewrite (IH (S s) i Hnd' Hi).
      replace (s + S i)%nat with (S s + i)%nat by lia.
      destruct (slot s a) as [p|] eqn:E; [|reflexivity].
      simpl. apply Hpath in E. rewrite E.
      destruct (String.eqb_spec (name a) (name img)) as [Eq|]; [|reflexivity].
      exfalso. apply Hnotin. rewrite Eq. apply in_map.
      eapply nth_error_In. exact Hi.
Qed.

(** C10: in grid layout the cell of the image at index [i] depends only on
    [i] and on the number [N] of input files (row [i / cols], column
    [i mod cols]); two runs over [N] files that agree on the file at index
    [i] give it the same position and size whatever the other probes answer,
    and a file whose probe fails leaves its cell empty. *)
Theorem grid_cell_depends_on_index_and_count
  (l1 l2 : list file) (aw ah : Q) (i : nat) (img : file) :
  length l1 = length l2 ->
  NoDup (map name l1) -> NoDup (map name l2) ->
  nth_error l1 i = Some img -> nth_error l2 i = Some img ->
  let of_img := fun p => String.eqb (name (Grid.path p)) (name img) in
  let out1 := filter of_img (Grid.arrange_all_images_on_single_page l1 aw ah) in
  let out2 := filter of_img (Grid.arrange_all_images_on_single_page l2 aw ah) in
  out1 = out2 /\
  out1 = olist (grid_slot (length l1) aw ah i img) /\
  (probe_ok img = false -> out1 = []) /\
  (probe_ok img = true ->
   exists p, out1 = [p] /\
     centered_fit (grid_cell (length l1) aw ah i) img
       = Some (grid_rect p, Grid.scale p)).
Proof.
  intros Hlen Hnd1 Hnd2 H1 H2 of_img out1 out2.
  assert (E1 : out1 = olist (grid_slot (length l1) aw ah i img)).
  { unfold out1, of_img. rewrite grid_arrange_slots. unfold enumerate.
    rewrite (filter_slots_by_name Grid.path (grid_slot (length l1) aw ah)
               (grid_slot_path _ _ _) img l1 0 i Hnd1 H1).
    reflexivity. }
  assert (E2 : out2 = olist (grid_slot (length l1) aw ah i img)).
  { unfold out2, of_img. rewrite grid_arrange_slots. unfold enumerate.
    rewrite (filter_slots_by_name Grid.path (grid_slot (length l2) aw ah)
               (grid_slot_path _ _ _) img l2 0 i Hnd2 H2).
    rewrite Hlen. reflexivity. }
  repeat split.
  - congruence.
  - exact E1.
  - intro Hp. rewrite E1. unfold grid_slot, centered_fit.
    apply (calculate_image_dimensions_None img
             (rw (grid_cell (length l1) aw ah i))
             (rh (grid_cell (length l1) aw ah i))) in Hp.
    rewrite Hp. reflexivity.
  - intro Hp. rewrite E1. unfold grid_slot.
    destruct (centered_fit (grid_cell (length l1) aw ah i) img) as [[r s]|] eqn:E.
    + eexists. split; [reflexivity|]. destruct r; reflexivity.
    + exfalso. unfold centered_fit in E.
      destruct (probe_ok_Some img (rw (grid_cell (length l1) aw ah i))
                  (rh (grid_cell (length l1) aw ah i)) Hp) as (w & h & s & Hc).
      rewrite Hc in E. discriminate.
Qed.

(** *** Geometry of the grid cells *)

(** The spacing between the cells leaves room for cells of positive size. *)
Definition grid_fits (n : nat) (aw ah : Q) : Prop :=
  let '(rows, cols) := Grid.calculate_grid_layout (Z.of_nat n) in
  inject_Z ((cols - 1) * Grid.spacing) < aw /\
  inject_Z ((rows - 1) * Grid.spacing) < ah.

(** The available area, with its origin at the lower-left margin corner *)
Definition canvas (aw ah : Q) : rect := mkRect 0 0 aw ah.

Lemma Qmul_inject_le (a b : Z) (c : Q) :
  (a <= b)%Z -> 0 <= c -> inject_Z a * c <= inject_Z b * c.
Proof.
  intros H Hc. apply Qmult_le_compat_r; [|exact Hc]. now rewrite <- Zle_Qle.
Qed.

Section GridGeometry.
Variables (n : nat) (aw ah : Q).
Hypothesis (Hn : (1 <= n)%nat) (Hfit : grid_fits n aw ah).

Let rows := fst (Grid.calculate_grid_layout (Z.of_nat n)).
Let cols := snd (Grid.calculate_grid_layout (Z.of_nat n)).
Let cw := (aw - inject_Z ((cols - 1) * Grid.spacing)) / inject_Z cols.
Let ch := (ah - inject_Z ((rows - 1) * Grid.spacing)) / inject_Z rows.

Lemma grid_dims : (1 <= rows /\ 1 <= cols /\ Z.of_nat n <= rows * cols)%Z.
Proof.
  pose proof (grid_layout_covers (Z.of_nat n) ltac:(lia)) as H.
  unfold rows, cols. destruct (Grid.calculate_grid_layout (Z.of_nat n)); simpl. lia.
Qed.

Lemma grid_cw_eq : cw * inject_Z cols == aw - inject_Z (cols - 1) * 5.
Proof.
  pose proof grid_dims as (_ & Hc & _). pose proof (inject_Z_pos cols ltac:(lia)).
  unfold cw, Grid.spacing. rewrite inject_Z_mult. field. lra.
Qed.

Lemma grid_ch_eq : ch * inject_Z rows == ah - inject_Z (rows - 1) * 5.
Proof.
  pose proof grid_dims as (Hr & _ & _). pose proof (inject_Z_pos rows ltac:(lia)).
  unfold ch, Grid.spacing. rewrite inject_Z_mult. field. lra.
Qed.

Lemma grid_cw_pos : 0 < cw.
Proof.
  pose proof grid_dims as (_ & Hc & _). pose proof (inject_Z_pos cols ltac:(lia)).
  unfold grid_fits in Hfit. fold rows cols in Hfit.
  assert (Hf : inject_Z ((cols - 1) * Grid.spacing) < aw).
  { revert Hfit. unfold rows, cols.
    destruct (Grid.calculate_grid_layout (Z.of_nat n)); simpl. tauto. }
  unfold cw. apply Qlt_shift_div_l; lra.
Qed.

Lemma grid_ch_pos : 0 < ch.
Proof.
  pose proof grid_dims as (Hr & _ & _). pose proof (inject_Z_pos rows ltac:(lia)).
  assert (Hf : inject_Z ((rows - 1) * Grid.spacing) < ah).
  { revert Hfit. unfold grid_fits, rows, cols.
    destruct (Grid.calculate_grid_layout (Z.of_nat n)); simpl. tauto. }
  unfold ch. apply Qlt_shift_div_l; lra.
Qed.

Lemma grid_cell_eq (i : nat) :
  grid_cell n aw ah i =
  mkRect (inject_Z (Z.of_nat i mod cols) * (cw + inject_Z Grid.spacing))
         (ah - inject_Z (Z.of_nat i / cols + 1) * ch
             - inject_Z (Z.of_nat i / cols * Grid.spacing))
         cw ch.
Proof.
  unfold grid_cell, grid_cell_size, cw, ch, rows, cols.
  destruct (Grid.calculate_grid_layout (Z.of_nat n)); reflexivity.
Qed.

Lemma grid_cell_in_canvas (i : nat) :
  (i < n)%nat -> inside (grid_cell n aw ah i) (canvas aw ah).
Proof.
  intro Hi. rewrite grid_cell_eq. unfold inside, canvas; simpl.
  pose proof grid_dims as (Hr & Hc & Hcov).
  pose proof grid_cw_pos as Pw. pose proof grid_ch_pos as Ph.
  pose proof grid_cw_eq as Ew. pose proof grid_ch_eq as Eh.
  pose proof (Z.mod_pos_bound (Z.of_nat i) cols ltac:(lia)) as Hcol.
  assert (Hrow : (0 <= Z.of_nat i / cols <= rows - 1)%Z).
  { split; [apply Z.div_pos; lia|].
    assert (Z.of_nat i / cols < rows)%Z; [|lia].
    apply Z.div_lt_upper_bound; nia. }
  set (c := (Z.of_nat i mod cols)%Z) in *. set (r := (Z.of_nat i / cols)%Z) in *.
  unfold Grid.spacing. rewrite inject_Z_plus, inject_Z_mult.
  rewrite inject_Z_sub in Ew, Eh.
  change (inject_Z 1) with 1 in *. change (inject_Z 5) with 5 in *.
  pose proof (Qmul_inject_le 0 c (cw + 5) ltac:(lia) ltac:(lra)) as C1.
  pose proof (Qmul_inject_le c (cols - 1) (cw + 5) ltac:(lia) ltac:(lra)) as C2.
  pose proof (Qmul_inject_le 0 r (ch + 5) ltac:(lia) ltac:(lra)) as R1.
  pose proof (Qmul_inject_le r (rows - 1) (ch + 5) ltac:(lia) ltac:(lra)) as R2.
  rewrite inject_Z_sub in C2, R2.
  change (inject_Z 0) with 0 in *. change (inject_Z 1) with 1 in *.
  repeat split; lra.
Qed.

Lemma grid_cells_disjoint (i j : nat) :
  (i < j < n)%nat -> disjoint (grid_cell n aw ah i) (grid_cell n aw ah j).
Proof.
  intro Hij. rewrite !grid_cell_eq. unfold disjoint; simpl.
  pose proof grid_dims as (Hr & Hc & Hcov).
  pose proof grid_cw_pos as Pw. pose proof grid_ch_pos as Ph.
  pose proof (Z.div_mod (Z.of_nat i) cols ltac:(lia)) as Di.
  pose proof (Z.div_mod (Z.of_nat j) cols ltac:(lia)) as Dj.
  pose proof (Z.mod_pos_bound (Z.of_nat i) cols ltac:(lia)) as Mi.
  pose proof (Z.mod_pos_bound (Z.of_nat j) cols ltac:(lia)) as Mj.
  set (ci := (Z.of_nat i mod cols)%Z) in *. set (ri := (Z.of_nat i / cols)%Z) in *.
  set (cj := (Z.of_nat j mod cols)%Z) in *. set (rj := (Z.of_nat j / cols)%Z) in *.
  assert (Hcase : (ri + 1 <= rj \/ (ri = rj /\ ci + 1 <= cj))%Z) by nia.
  unfold Grid.spacing. rewrite !inject_Z_plus, !inject_Z_mult.
  change (inject_Z 1) with 1. change (inject_Z 5) with 5.
  destruct Hcase as [Hrow|[Hrow Hcol]].
  - (* a lower row: the later cell lies below *)
    right; right; right.
    pose proof (Qmul_inject_le (ri + 1) rj (ch + 5) Hrow ltac:(lra)) as R.
    rewrite inject_Z_plus in R. change (inject_Z 1) with 1 in R. lra.
  - (* the same row: the later cell lies to the right *)
    left.
    pose proof (Qmul_inject_le (ci + 1) cj (cw + 5) Hcol ltac:(lra)) as C.
    rewrite inject_Z_plus in C. change (inject_Z 1) with 1 in C. lra.
Qed.
End GridGeometry.

(** ** Spiral layout: the position generator *)

Local Open Scope Z_scope.

(** The cells appended by [n] iterations of the generator's loop *)
Fixpoint walk (n : nat) (x y dx dy k t dc : Z) : list (Z * Z) :=
  match n with
  | O => []
  | S n' =>
      (x + dx, y + dy) ::
      if t + 1 =? k then
        if (dc + 1) mod 2 =? 0
        then walk n' (x + dx) (y + dy) (- dy) dx (k + 1) 0 (dc + 1)
        else walk n' (x + dx) (y + dy) (- dy) dx k 0 (dc + 1)
      else walk n' (x + dx) (y + dy) dx dy k (t + 1) dc
  end.

Lemma spiral_loop_walk (n : nat) (x y dx dy k t dc : Z) (positions : list (Z * Z)) :
  Spiral.spiral_loop n x y dx dy k t dc positions
  = (positions ++ walk n x y dx dy k t dc)%list.
Proof.
  revert x y dx dy k t dc positions.
  induction n as [|n IH]; intros; simpl.
  - now rewrite app_nil_r.
  - destruct (t + 1 =? k); [destruct ((dc + 1) mod 2 =? 0)|];
      rewrite IH, <- app_assoc; reflexivity.
Qed.

Lemma generate_spiral_positions_walk (n : nat) :
  Spiral.generate_spiral_positions (Z.of_nat (S n)) = (0, 0) :: walk n 0 0 1 0 1 0 0.
Proof.
  unfold Spiral.generate_spiral_positions.
  destruct (Z.eqb_spec (Z.of_nat (S n)) 0) as [E|_]; [lia|].
  destruct (Z.eqb_spec (Z.of_nat (S n)) 1) as [E|_].
  - assert (n = O) by lia. subst n. reflexivity.
  - rewrite spiral_loop_walk.
    replace (Z.to_nat (Z.of_nat (S n) - 1)) with n by lia. reflexivity.
Qed.

Lemma walk_length (n : nat) (x y dx dy k t dc : Z) :
  length (walk n x y dx dy k t dc) = n.
Proof.
  revert x y dx dy k t dc. induction n as [|n IH]; intros; simpl; [reflexivity|].
  destruct (t + 1 =? k); [destruct ((dc + 1) mod 2 =? 0)|]; now rewrite IH.
Qed.

(** Two cells of the integer grid share an edge. *)
Definition adjacent (p q : Z * Z) : Prop :=
  Z.abs (fst q - fst p) + Z.abs (snd q - snd p) = 1.

(** Every element of the list is adjacent to its successor. *)
Fixpoint chain (p : Z * Z) (l : list (Z * Z)) : Prop :=
  match l with
  | [] => True
  | q :: l' => adjacent p q /\ chain q l'
  end.

Lemma walk_chain (n : nat) (x y dx dy k t dc : Z) :
  Z.abs dx + Z.abs dy = 1 -> chain (x, y) (walk n x y dx dy k t dc).
Proof.
  revert x y dx dy k t dc. induction n as [|n IH]; intros x y dx dy k t dc Hd; simpl.
  - exact I.
  - split; [unfold adjacent; simpl; lia|].
    destruct (t + 1 =? k); [destruct ((dc + 1) mod 2 =? 0)|]; apply IH; lia.
Qed.

(** *** The region swept so far

    While the walker runs along one side of the square of half-width [m], the
    cells visited so far lie in a full rectangle plus the part of the side
    already walked. *)
Definition in_box (xlo xhi ylo yhi : Z) (p : Z * Z) : Prop :=
  xlo <= fst p <= xhi /\ ylo <= snd p <= yhi.

Inductive sweeping (x y dx dy k t dc : Z) : (Z * Z -> Prop) -> Prop :=
| sweep_right m :
    0 <= m -> dc = 4 * m -> dx = 1 -> dy = 0 -> k = 2 * m + 1 ->
    0 <= t < k -> x = - m + t -> y = - m ->
    sweeping x y dx dy k t dc
      (fun p => in_box (- m) m (- m + 1) m p \/ in_box (- m) (- m + t) (- m) (- m) p)
| sweep_up m :
    0 <= m -> dc = 4 * m + 1 -> dx = 0 -> dy = 1 -> k = 2 * m + 1 ->
    0 <= t < k -> x = m + 1 -> y = - m + t ->
    sweeping x y dx dy k t dc
      (fun p => in_box (- m) m (- m) m p \/ in_box (m + 1) (m + 1) (- m) (- m + t) p)
| sweep_left m :
    0 <= m -> dc = 4 * m + 2 -> dx = -1 -> dy = 0 -> k = 2 * m + 2 ->
    0 <= t < k -> x = m + 1 - t -> y = m + 1 ->
    sweeping x y dx dy k t dc
      (fun p => in_box (- m) (m + 1) (- m) m p \/
                in_box (m + 1 - t) (m + 1) (m + 1) (m + 1) p)
| sweep_down m :
    0 <= m -> dc = 4 * m + 3 -> dx = 0 -> dy = -1 -> k = 2 * m + 2 ->
    0 <= t < k -> x = - m - 1 -> y = m + 1 - t ->
    sweeping x y dx dy k t dc
      (fun p => in_box (- m) (m + 1) (- m) (m + 1) p \/
                in_box (- m - 1) (- m - 1) (m + 1 - t) (m + 1) p).

Lemma sweeping_here x y dx dy k t dc R :
  sweeping x y dx dy k t dc R -> R (x, y).
Proof.
  intros []; subst; unfold in_box; simpl; lia.
Qed.

(** One iteration: the new cell is fresh, and the region of the next state
    contains the old region and the new cell. *)
Lemma sweeping_step x y dx dy k t dc R :
  sweeping x y dx dy k t dc R ->
  ~ R (x + dx, y + dy) /\
  exists R',
    (forall p, R p -> R' p) /\
    (if t + 1 =? k then
       if (dc + 1) mod 2 =? 0
       then sweeping (x + dx) (y + dy) (- dy) dx (k + 1) 0 (dc + 1) R'
       else sweeping (x + dx) (y + dy) (- dy) dx k 0 (dc + 1) R'
     else sweeping (x + dx) (y + dy) dx dy k (t + 1) dc R').
Proof.
  intros [m Hm Hdc Hdx Hdy Hk Ht Hx Hy | m Hm Hdc Hdx Hdy Hk Ht Hx Hy
         | m Hm Hdc Hdx Hdy Hk Ht Hx Hy | m Hm Hdc Hdx Hdy Hk Ht Hx Hy];
    (split; [unfold in_box; simpl; lia|]);
    destruct (Z.eqb_spec (t + 1) k) as [Et|Et].
  - (* right, last step: turn up *)
    replace ((dc + 1) mod 2 =? 0) with false
      by (symmetry; apply Z.eqb_neq; subst dc; Z.div_mod_to_equations; lia).
    eexists. split; [|apply (sweep_up _ _ _ _ _ _ _ m); lia].
    unfold in_box; simpl; intros [a b]; simpl; lia.
  - eexists. split; [|apply (sweep_right _ _ _ _ _ _ _ m); lia].
    unfold in_box; simpl; intros [a b]; simpl; lia.
  - (* up, last step: turn left, one more step per side *)
    replace ((dc + 1) mod 2 =? 0) with true
      by (symmetry; apply Z.eqb_eq; subst dc; Z.div_mod_to_equations; lia).
    eexists. split; [|apply (sweep_left _ _ _ _ _ _ _ m); lia].
    unfold in_box; simpl; intros [a b]; simpl; lia.
  - eexists. split; [|apply (sweep_up _ _ _ _ _ _ _ m); lia].
    unfold in_box; simpl; intros [a b]; simpl; lia.
  - (* left, last step: turn down *)
    replace ((dc + 1) mod 2 =? 0) with false
      by (symmetry; apply Z.eqb_neq; subst dc; Z.div_mod_to_equations; lia).
    eexists. split; [|apply (sweep_down _ _ _ _ _ _ _ m); lia].
    unfold in_box; simpl; intros [a b]; simpl; lia.
  - eexists. split; [|apply (sweep_left _ _ _ _ _ _ _ m); lia].
    unfold in_box; simpl; intros [a b]; simpl; lia.
  - (* down, last step: turn right, one more step per side *)
    replace ((dc + 1) mod 2 =? 0) with true
      by (symmetry; apply Z.eqb_eq; subst dc; Z.div_mod_to_equations; lia).
    eexists. split; [|apply (sweep_right _ _ _ _ _ _ _ (m + 1)); lia].
    unfold in_box; simpl; intros [a b]; simpl; lia.
  - eexists. split; [|apply (sweep_down _ _ _ _ _ _ _ m); lia].
    unfold in_box; simpl; intros [a b]; simpl; lia.
Qed.

Lemma walk_fresh (n : nat) x y dx dy k t dc R :
  sweeping x y dx dy k t dc R ->
  NoDup (walk n x y dx dy k t dc) /\
  forall p, In p (walk n x y dx dy k t dc) -> ~ R p.
Proof.
  revert x y dx dy k t dc R.
  induction n as [|n IH]; intros x y dx dy k t dc R HR; simpl.
  - split; [constructor|tauto].
  - destruct (sweeping_step _ _ _ _ _ _ _ _ HR) as (Hfresh & R' & Hsub & Hnext).
    assert (Hq : R' (x + dx, y + dy)).
    { destruct (t + 1 =? k); [destruct ((dc + 1) mod 2 =? 0)|];
        apply (sweeping_here _ _ _ _ _ _ _ _ Hnext). }
    assert (Hrest : NoDup
              (if t + 1 =? k then
                 if (dc + 1) mod 2 =? 0
                 then walk n (x + dx) (y + dy) (- dy) dx (k + 1) 0 (dc + 1)
                 else walk n (x + dx) (y + dy) (- dy) dx k 0 (dc + 1)
               else walk n (x + dx) (y + dy) dx dy k (t + 1) dc) /\
            forall p, In p
              (if t + 1 =? k then
                 if (dc + 1) mod 2 =? 0
                 then walk n (x + dx) (y + dy) (- dy) dx (k + 1) 0 (dc + 1)
                 else walk n (x + dx) (y + dy) (- dy) dx k 0 (dc + 1)
               else walk n (x + dx) (y + dy) dx dy k (t + 1) dc) -> ~ R' p).
    { destruct (t + 1 =? k); [destruct ((dc + 1) mod 2 =? 0)|];
        apply (IH _ _ _ _ _ _ _ _ Hnext). }
    destruct Hrest as [Hnd Hout]. split.
    + constructor; [|exact Hnd]. intro Hin. exact (Hout _ Hin Hq).
    + intros p [<-|Hin]; [exact Hfresh|].
      intro Hp. exact (Hout _ Hin (Hsub _ Hp)).
Qed.

Lemma sweeping_start :
  sweeping 0 0 1 0 1 0 0
    (fun p => in_box (- 0) 0 (- 0 + 1) 0 p \/ in_box (- 0) (- 0 + 0) (- 0) (- 0) p).
Proof. apply (sweep_right _ _ _ _ _ _ _ 0); lia. Qed.

Lemma generate_spiral_positions_NoDup (n : nat) :
  NoDup (Spiral.generate_spiral_positions (Z.of_nat n)).
Proof.
  destruct n as [|n]; [constructor|].
  rewrite generate_spiral_positions_walk.
  destruct (walk_fresh n _ _ _ _ _ _ _ _ sweeping_start) as [Hnd Hout].
  constructor; [|exact Hnd].
  intro Hin. apply (Hout _ Hin). right. unfold in_box; simpl; lia.
Qed.

Local Close Scope Z_scope.

(** *** The square spiral of the specification

    A second description of the walk, following the words of the
    specification: start at (0,0) heading in direction +x with k = 1; take k
    steps, turn 90 degrees counter-clockwise, and increase k by one after
    every second turn. *)

Local Open Scope Z_scope.

Definition move (p d : Z * Z) : Z * Z := (fst p + fst d, snd p + snd d).

Definition turn_ccw (d : Z * Z) : Z * Z := (- snd d, fst d).

(** The cells entered by [k] steps from [p] in direction [d] *)
Fixpoint leg (k : nat) (p d : Z * Z) : list (Z * Z) :=
  match k with
  | O => []
  | S k' => move p d :: leg k' (move p d) d
  end.

(** Where [k] steps from [p] in direction [d] end *)
Fixpoint leg_end (k : nat) (p d : Z * Z) : Z * Z :=
  match k with
  | O => p
  | S k' => leg_end k' (move p d) d
  end.

(** [legs] successive legs; [turns] counts the turns made so far *)
Fixpoint square_spiral_from (legs : nat) (p d : Z * Z) (k turns : nat) : list (Z * Z) :=
  match legs with
  | O => []
  | S legs' =>
      (leg k p d ++
       square_spiral_from legs' (leg_end k p d) (turn_ccw d)
                          (if Nat.even (S turns) then S k else k) (S turns))%list
  end.

(** The first [n] cells of the square spiral ([n] legs hold at least [n] cells) *)
Definition square_spiral (n : nat) : list (Z * Z) :=
  firstn n ((0, 0) :: square_spiral_from n (0, 0) (1, 0) 1 0).

Lemma even_succ_mod2 (dc : nat) :
  ((Z.of_nat dc + 1) mod 2 =? 0) = Nat.even (S dc).
Proof.
  replace (Z.of_nat dc + 1) with (Z.of_nat (S dc)) by lia.
  destruct (Nat.even (S dc)) eqn:E.
  - apply Nat.even_spec in E. destruct E as [h Hh]. rewrite Hh.
    apply Z.eqb_eq. rewrite Nat2Z.inj_mul. simpl (Z.of_nat 2).
    rewrite Z.mul_comm. apply Z_mod_mult.
  - apply Z.eqb_neq. intro H.
    assert (Ev : Nat.Even (S dc)).
    { exists (Z.to_nat (Z.of_nat (S dc) / 2)).
      pose proof (Z.div_mod (Z.of_nat (S dc)) 2 ltac:(lia)).
      pose proof (Z.div_pos (Z.of_nat (S dc)) 2 ltac:(lia) ltac:(lia)).
      apply Nat2Z.inj. rewrite Nat2Z.inj_mul, Z2Nat.id by assumption.
      simpl (Z.of_nat 2). lia. }
    apply Nat.even_spec in Ev. congruence.
Qed.

Lemma walk_refines (n : nat) :
  forall (legs : nat) (p d : Z * Z) (kn tn dcn : nat),
  (tn < kn)%nat -> (n <= legs)%nat ->
  walk n (fst p) (snd p) (fst d) (snd d) (Z.of_nat kn) (Z.of_nat tn) (Z.of_nat dcn)
  = firstn n
      (leg (kn - tn) p d ++
       square_spiral_from legs (leg_end (kn - tn) p d) (turn_ccw d)
                          (if Nat.even (S dcn) then S kn else kn) (S dcn))%list.
Proof.
  induction n as [|n IH]; intros legs p d kn tn dcn Ht Hlegs; [reflexivity|].
  destruct (kn - tn)%nat as [|r] eqn:Er; [lia|].
  cbn [walk leg leg_end app firstn]. f_equal.
  rewrite even_succ_mod2.
  destruct (Z.eqb_spec (Z.of_nat tn + 1) (Z.of_nat kn)) as [E|E].
  - assert (r = O) by lia. subst r. cbn [leg leg_end app].
    destruct legs as [|legs']; [lia|]. cbn [square_spiral_from].
    destruct (Nat.even (S dcn)).
    + replace (Z.of_nat kn + 1) with (Z.of_nat (S kn)) by lia.
      replace (Z.of_nat dcn + 1) with (Z.of_nat (S dcn)) by lia.
      pose proof (IH legs' (move p d) (turn_ccw d) (S kn) O (S dcn)
                    ltac:(lia) ltac:(lia)) as H.
      rewrite Nat.sub_0_r in H. exact H.
    + replace (Z.of_nat dcn + 1) with (Z.of_nat (S dcn)) by lia.
      pose proof (IH legs' (move p d) (turn_ccw d) kn O (S dcn)
                    ltac:(lia) ltac:(lia)) as H.
      rewrite Nat.sub_0_r in H. exact H.
  - replace (Z.of_nat tn + 1) with (Z.of_nat (S tn)) by lia.
    pose proof (IH legs (move p d) d kn (S tn) dcn ltac:(lia) ltac:(lia)) as H.
    replace (kn - S tn)%nat with r in H by lia. exact H.
Qed.

Lemma generate_spiral_positions_refines (n : nat) :
  Spiral.generate_spiral_positions (Z.of_nat n) = square_spiral n.
Proof.
  destruct n as [|n]; [reflexivity|].
  rewrite generate_spiral_positions_walk. unfold square_spiral.
  cbn [firstn]. f_equal.
  exact (walk_refines n n (0, 0) (1, 0) 1%nat 0%nat 0%nat ltac:(lia) ltac:(lia)).
Qed.

(** *** Counting the cells of the bounding box *)

Lemma fold_min_le_init (t : list Z) (a : Z) : fold_left Z.min t a <= a.
Proof.
  revert a. induction t as [|b t IH]; intro a; simpl; [lia|].
  pose proof (IH (Z.min a b)). lia.
Qed.

Lemma fold_max_ge_init (t : list Z) (a : Z) : a <= fold_left Z.max t a.
Proof.
  revert a. induction t as [|b t IH]; intro a; simpl; [lia|].
  pose proof (IH (Z.max a b)). lia.
Qed.

Lemma fold_min_le (t : list Z) (a x : Z) :
  In x (a :: t) -> fold_left Z.min t a <= x.
Proof.
  intros [->|Hin]; [apply fold_min_le_init|].
  revert a. induction t as [|b t IH]; intro a; [destruct Hin|].
  simpl. destruct Hin as [->|Hin].
  - pose proof (fold_min_le_init t (Z.min a x)). lia.
  - apply IH. exact Hin.
Qed.

Lemma fold_max_ge (t : list Z) (a x : Z) :
  In x (a :: t) -> x <= fold_left Z.max t a.
Proof.
  intros [->|Hin]; [apply fold_max_ge_init|].
  revert a. induction t as [|b t IH]; intro a; [destruct Hin|].
  simpl. destruct Hin as [->|Hin].
  - pose proof (fold_max_ge_init t (Z.max a x)). lia.
  - apply IH. exact Hin.
Qed.

Lemma Zminimum_le (l : list Z) (x : Z) : In x l -> Zminimum l <= x.
Proof. destruct l as [|a t]; [intros []|]. apply fold_min_le. Qed.

Lemma Zmaximum_ge (l : list Z) (x : Z) : In x l -> x <= Zmaximum l.
Proof. destruct l as [|a t]; [intros []|]. apply fold_max_ge. Qed.

Lemma in_bounding_box (l : list (Z * Z)) (p : Z * Z) :
  In p l ->
  in_box (Zminimum (map fst l)) (Zmaximum (map fst l))
         (Zminimum (map snd l)) (Zmaximum (map snd l)) p.
Proof.
  intro Hin. unfold in_box.
  pose proof (in_map fst _ _ Hin). pose proof (in_map snd _ _ Hin).
  repeat split;
    auto using Zminimum_le, Zmaximum_ge.
Qed.

Definition zrange (lo hi : Z) : list Z :=
  map (fun i => lo + Z.of_nat i) (seq 0 (Z.to_nat (hi - lo + 1))).

Lemma in_zrange (lo hi x : Z) : lo <= x <= hi -> In x (zrange lo hi).
Proof.
  intro H. unfold zrange. apply in_map_iff. exists (Z.to_nat (x - lo)).
  split; [lia|]. apply in_seq. lia.
Qed.

(** Distinct cells within a box are at most as many as the box has cells. *)
Lemma box_count (l : list (Z * Z)) (xlo xhi ylo yhi : Z) :
  xlo <= xhi -> ylo <= yhi -> NoDup l ->
  (forall p, In p l -> in_box xlo xhi ylo yhi p) ->
  Z.of_nat (length l) <= (xhi - xlo + 1) * (yhi - ylo + 1).
Proof.
  intros Hx Hy Hnd Hin.
  assert (Hincl : incl l (list_prod (zrange xlo xhi) (zrange ylo yhi))).
  { intros [a b] Hp. destruct (Hin _ Hp) as [Ha Hb]. simpl in Ha, Hb.
    apply in_prod; apply in_zrange; assumption. }
  pose proof (NoDup_incl_length Hnd Hincl) as Hlen.
  rewrite length_prod in Hlen. unfold zrange in Hlen.
  rewrite !length_map, !length_seq in Hlen.
  apply Nat2Z.inj_le in Hlen. rewrite Nat2Z.inj_mul in Hlen.
  rewrite !Z2Nat.id in Hlen by lia. exact Hlen.
Qed.

Lemma generate_spiral_positions_length (n : nat) :
  length (Spiral.generate_spiral_positions (Z.of_nat n)) = n.
Proof.
  destruct n as [|n]; [reflexivity|].
  rewrite generate_spiral_positions_walk. simpl. now rewrite walk_length.
Qed.

Lemma spiral_bounding_box (n : nat) :
  (1 <= n)%nat ->
  let ps := Spiral.generate_spiral_positions (Z.of_nat n) in
  let gw := Zmaximum (map fst ps) - Zminimum (map fst ps) + 1 in
  let gh := Zmaximum (map snd ps) - Zminimum (map snd ps) + 1 in
  1 <= gw /\ 1 <= gh /\ Z.of_nat n <= gw * gh.
Proof.
  intros Hn ps gw gh.
  assert (H0 : In (0, 0) ps).
  { unfold ps. destruct n as [|n]; [lia|].
    rewrite generate_spiral_positions_walk. now left. }
  pose proof (in_bounding_box ps _ H0) as [Hx Hy]. simpl in Hx, Hy.
  split; [unfold gw; lia|]. split; [unfold gh; lia|].
  rewrite <- (generate_spiral_positions_length n) at 1. fold ps.
  unfold gw, gh. apply box_count; try lia.
  - apply generate_spiral_positions_NoDup.
  - apply in_bounding_box.
Qed.

(** Consecutive elements of a list are adjacent cells. *)
Definition connected_walk (l : list (Z * Z)) : Prop :=
  match l with
  | [] => True
  | p :: l' => chain p l'
  end.

(** C3: for every N >= 1 the generator returns exactly N cells, which are the
    first N cells of the square spiral of the specification (first cell (0,0),
    initial direction +x, k steps then a counter-clockwise quarter turn, k
    increased after every second turn); they are pairwise distinct, each is
    grid-adjacent to its predecessor, and their bounding box has at least N
    cells. *)
Theorem generate_spiral_positions_spec (N : Z) :
  1 <= N ->
  let ps := Spiral.generate_spiral_positions N in
  length ps = Z.to_nat N /\
  ps = square_spiral (Z.to_nat N) /\
  hd_error ps = Some (0, 0) /\
  NoDup ps /\
  connected_walk ps /\
  N <= (Zmaximum (map fst ps) - Zminimum (map fst ps) + 1)
       * (Zmaximum (map snd ps) - Zminimum (map snd ps) + 1).
Proof.
  intros HN ps. subst ps.
  rewrite <- (Z2Nat.id N) by lia. rewrite Nat2Z.id.
  destruct (Z.to_nat N) as [|n] eqn:En; [lia|].
  repeat split.
  - apply generate_spiral_positions_length.
  - apply generate_spiral_positions_refines.
  - now rewrite generate_spiral_positions_walk.
  - apply generate_spiral_positions_NoDup.
  - rewrite generate_spiral_positions_walk. simpl.
    apply walk_chain. reflexivity.
  - apply (spiral_bounding_box (S n)). lia.
Qed.

Lemma generate_spiral_positions_spec_witness :
  1 <= 10 /\
  length (Spiral.generate_spiral_positions 10) = 10%nat /\
  NoDup (Spiral.generate_spiral_positions 10).
Proof.
  split; [lia|].
  pose proof (generate_spiral_positions_spec 10 ltac:(lia)) as H.
  cbv zeta in H. split; [apply H|apply H].
Defined.

Local Close Scope Z_scope.

(** ** Spiral layout: cells and placements *)

(** Extent of the bounding box of the first [n] spiral cells *)
Definition spiral_grid_width (n : nat) : Z :=
  let ps := Spiral.generate_spiral_positions (Z.of_nat n) in
  (Zmaximum (map fst ps) - Zminimum (map fst ps) + 1)%Z.

Definition spiral_grid_height (n : nat) : Z :=
  let ps := Spiral.generate_spiral_positions (Z.of_nat n) in
  (Zmaximum (map snd ps) - Zminimum (map snd ps) + 1)%Z.

(** The uniform cell size for [n] images *)
Definition spiral_cell_size (n : nat) (aw ah : Q) : Q :=
  Qmin (aw / inject_Z (spiral_grid_width n)) (ah / inject_Z (spiral_grid_height n)).

(** The cell of index [i]: the square at the [i]-th spiral coordinate *)
Definition spiral_cell (n : nat) (aw ah : Q) (i : nat) : rect :=
  let ps := Spiral.generate_spiral_positions (Z.of_nat n) in
  let cs := spiral_cell_size n aw ah in
  let offset := Spiral.spiral_offsets cs ps aw ah in
  let g := nth i ps (0, 0)%Z in
  mkRect (fst offset + inject_Z (fst g) * cs) (snd offset + inject_Z (snd g) * cs) cs cs.

(** What the spiral loop emits for index [i] *)
Definition spiral_slot (n : nat) (aw ah : Q) (i : nat) (img : file)
  : option Spiral.placement :=
  match centered_fit (spiral_cell n aw ah i) img with
  | Some (r, s) =>
      Some (Spiral.mkPlacement img (rx r) (ry r) (rw r) (rh r) s
                               (spiral_cell_size n aw ah))
  | None => None
  end.

Definition spiral_rect (p : Spiral.placement) : rect :=
  mkRect (Spiral.x p) (Spiral.y p) (Spiral.width p) (Spiral.height p).

Lemma calculate_spiral_dimensions_eq (n : nat) (aw ah : Q) :
  (1 <= n)%nat ->
  Spiral.calculate_spiral_dimensions (Z.of_nat n) aw ah
  = (spiral_cell_size n aw ah, Spiral.generate_spiral_positions (Z.of_nat n)).
Proof.
  intro Hn. unfold Spiral.calculate_spiral_dimensions.
  destruct (Z.eqb_spec (Z.of_nat n) 0); [lia|]. reflexivity.
Qed.

Lemma spiral_arrange_loop_slots (n : nat) (aw ah : Q) (el : list (nat * file)) :
  (forall i img, In (i, img) el -> (i < n)%nat) ->
  forall init,
  Spiral.arrange_loop (spiral_cell_size n aw ah)
    (fst (Spiral.spiral_offsets (spiral_cell_size n aw ah)
            (Spiral.generate_spiral_positions (Z.of_nat n)) aw ah))
    (snd (Spiral.spiral_offsets (spiral_cell_size n aw ah)
            (Spiral.generate_spiral_positions (Z.of_nat n)) aw ah))
    (Spiral.generate_spiral_positions (Z.of_nat n)) el init
  = init ++ flat_map (fun '(i, img) => olist (spiral_slot n aw ah i img)) el.
Proof.
  induction el as [|[i img] el IH]; intros Hel init; simpl.
  - now rewrite app_nil_r.
  - assert (Hi : (i < n)%nat) by (apply (Hel i img); now left).
    assert (Hel' : forall j im, In (j, im) el -> (j < n)%nat)
      by (intros j im H; apply (Hel j im); now right).
    destruct (nth_error (Spiral.generate_spiral_positions (Z.of_nat n)) i)
      as [[gx gy]|] eqn:En.
    + unfold spiral_slot, spiral_cell, centered_fit.
      rewrite (nth_error_nth _ _ (0, 0)%Z En). simpl.
      destruct (calculate_image_dimensions img _ _) as [[[w h] s]|]; simpl.
      * rewrite (IH Hel'). rewrite <- app_assoc. reflexivity.
      * rewrite (IH Hel'). reflexivity.
    + apply nth_error_None in En.
      rewrite generate_spiral_positions_length in En. lia.
Qed.

Lemma spiral_arrange_slots (l : list file) (aw ah : Q) :
  Spiral.arrange_all_images_on_single_page l aw ah =
  flat_map (fun '(i, img) => olist (spiral_slot (length l) aw ah i img)) (enumerate l).
Proof.
  unfold Spiral.arrange_all_images_on_single_page.
  destruct (Nat.eqb_spec (length l) 0) as [E|E].
  - destruct l; [reflexivity|discriminate].
  - rewrite calculate_spiral_dimensions_eq by lia.
    pose proof (spiral_arrange_loop_slots (length l) aw ah (enumerate l)) as H.
    destruct (Spiral.spiral_offsets _ _ aw ah) as [ox oy] eqn:Eoff.
    simpl in H. rewrite H; [reflexivity|].
    intros i img Hin. apply in_enumerate in Hin.
    apply nth_error_Some. congruence.
Qed.

Lemma spiral_slot_path n aw ah i img p :
  spiral_slot n aw ah i img = Some p -> Spiral.path p = img.
Proof.
  unfold spiral_slot. destruct (centered_fit _ img) as [[r s]|]; [|discriminate].
  intro H. injection H as <-. reflexivity.
Qed.

Lemma spiral_arrange_in (l : list file) (aw ah : Q) (p : Spiral.placement) :
  In p (Spiral.arrange_all_images_on_single_page l aw ah) <->
  exists i img, nth_error l i = Some img /\ spiral_slot (length l) aw ah i img = Some p.
Proof.
  rewrite spiral_arrange_slots, in_flat_map. split.
  - intros ([i img] & Hin & Hp). apply in_enumerate in Hin.
    exists i, img. split; [exact Hin|].
    destruct (spiral_slot _ _ _ i img); simpl in Hp; [|tauto].
    destruct Hp as [->|[]]. reflexivity.
  - intros (i & img & Hn & Hs). exists (i, img). split.
    + now apply in_enumerate.
    + rewrite Hs. now left.
Qed.

(** *** Geometry of the spiral cells *)
Section SpiralGeometry.
Variables (n : nat) (aw ah : Q).
Hypothesis (Hn : (1 <= n)%nat).

Let ps := Spiral.generate_spiral_positions (Z.of_nat n).
Let min_x := Zminimum (map fst ps).
Let min_y := Zminimum (map snd ps).
Let gw := spiral_grid_width n.
Let gh := spiral_grid_height n.
Let cs := spiral_cell_size n aw ah.

(** The margins left and below the centred spiral *)
Let left := (aw - inject_Z gw * cs) / 2.
Let bottom := (ah - inject_Z gh * cs) / 2.

Lemma spiral_grid_pos : (1 <= gw /\ 1 <= gh)%Z.
Proof.
  pose proof (spiral_bounding_box n Hn) as H. cbv zeta in H.
  unfold gw, gh, spiral_grid_width, spiral_grid_height. lia.
Qed.

Lemma spiral_cell_eq (i : nat) (gx gy : Z) :
  nth_error ps i = Some (gx, gy) ->
  spiral_cell n aw ah i =
  mkRect (left - inject_Z min_x * cs + inject_Z gx * cs)
         (bottom - inject_Z min_y * cs + inject_Z gy * cs) cs cs.
Proof.
  intro Hi. unfold spiral_cell. fold ps.
  rewrite (nth_error_nth _ _ (0, 0)%Z Hi). reflexivity.
Qed.

Lemma spiral_width_fits : inject_Z gw * cs <= aw.
Proof.
  pose proof spiral_grid_pos as [Hw _]. pose proof (inject_Z_pos gw ltac:(lia)) as P.
  assert (E : inject_Z gw * (aw / inject_Z gw) == aw) by (field; lra).
  rewrite <- E. apply Qmult_le_l; [exact P|]. apply Q.le_min_l.
Qed.

Lemma spiral_height_fits : inject_Z gh * cs <= ah.
Proof.
  pose proof spiral_grid_pos as [_ Hh]. pose proof (inject_Z_pos gh ltac:(lia)) as P.
  assert (E : inject_Z gh * (ah / inject_Z gh) == ah) by (field; lra).
  rewrite <- E. apply Qmult_le_l; [exact P|]. apply Q.le_min_r.
Qed.

Lemma spiral_cell_size_pos : 0 < aw -> 0 < ah -> 0 < cs.
Proof.
  intros Pw Ph. pose proof spiral_grid_pos as [Hw Hh].
  pose proof (inject_Z_pos gw ltac:(lia)). pose proof (inject_Z_pos gh ltac:(lia)).
  unfold cs, spiral_cell_size. fold gw gh.
  apply Q.min_glb_lt; apply Qlt_shift_div_l; lra.
Qed.

(** The spiral is centred: the margins on opposite sides are equal. *)
Lemma spiral_centered :
  left + inject_Z gw * cs == aw - left /\ bottom + inject_Z gh * cs == ah - bottom.
Proof. unfold left, bottom. split; field. Qed.

Lemma spiral_cell_in_canvas (i : nat) :
  0 < aw -> 0 < ah -> (i < n)%nat -> inside (spiral_cell n aw ah i) (canvas aw ah).
Proof.
  intros Pw Ph Hi.
  destruct (nth_error ps i) as [[gx gy]|] eqn:En.
  2:{ apply nth_error_None in En. unfold ps in En.
      rewrite generate_spiral_positions_length in En. lia. }
  rewrite (spiral_cell_eq i gx gy En). unfold inside, canvas; simpl.
  pose proof (spiral_cell_size_pos Pw Ph) as Pc.
  pose proof spiral_width_fits as Fw. pose proof spiral_height_fits as Fh.
  pose proof (in_bounding_box ps _ (nth_error_In _ _ En)) as [[X1 X2] [Y1 Y2]].
  simpl in X1, X2, Y1, Y2. fold min_x in X1. fold min_y in Y1.
  assert (Gx : (gx - min_x <= gw - 1)%Z)
    by (unfold gw, spiral_grid_width; fold ps; fold min_x; lia).
  assert (Gy : (gy - min_y <= gh - 1)%Z)
    by (unfold gh, spiral_grid_height; fold ps; fold min_y; lia).
  pose proof (Qmul_inject_le 0 (gx - min_x) cs ltac:(lia) ltac:(lra)) as A1.
  pose proof (Qmul_inject_le (gx - min_x) (gw - 1) cs Gx ltac:(lra)) as A2.
  pose proof (Qmul_inject_le 0 (gy - min_y) cs ltac:(lia) ltac:(lra)) as B1.
  pose proof (Qmul_inject_le (gy - min_y) (gh - 1) cs Gy ltac:(lra)) as B2.
  rewrite !inject_Z_sub in *. change (inject_Z 0) with 0 in *.
  change (inject_Z 1) with 1 in *.
  assert (left == (aw - inject_Z gw * cs) * (1 # 2)) by (unfold left; field).
  assert (bottom == (ah - inject_Z gh * cs) * (1 # 2)) by (unfold bottom; field).
  repeat split; lra.
Qed.

Lemma spiral_cells_disjoint (i j : nat) :
  0 < aw -> 0 < ah -> (i < j < n)%nat ->
  disjoint (spiral_cell n aw ah i) (spiral_cell n aw ah j).
Proof.
  intros Pw Ph Hij.
  destruct (nth_error ps i) as [[xi yi]|] eqn:Ei.
  2:{ apply nth_error_None in Ei. unfold ps in Ei.
      rewrite generate_spiral_positions_length in Ei. lia. }
  destruct (nth_error ps j) as [[xj yj]|] eqn:Ej.
  2:{ apply nth_error_None in Ej. unfold ps in Ej.
      rewrite generate_spiral_positions_length in Ej. lia. }
  rewrite (spiral_cell_eq i xi yi Ei), (spiral_cell_eq j xj yj Ej).
  unfold disjoint; simpl.
  pose proof (spiral_cell_size_pos Pw Ph) as Pc.
  assert (Hne : (xi, yi) <> (xj, yj)).
  { intro E. pose proof (generate_spiral_positions_NoDup n) as Hnd. fold ps in Hnd.
    rewrite NoDup_nth_error in Hnd.
    assert (i = j); [|lia]. apply Hnd.
    - apply nth_error_Some. congruence.
    - congruence. }
  assert (Hcase : (xi + 1 <= xj \/ xj + 1 <= xi \/ yi + 1 <= yj \/ yj + 1 <= yi)%Z).
  { destruct (Z.eq_dec xi xj) as [->|]; [|lia].
    destruct (Z.eq_dec yi yj) as [->|]; [|lia]. congruence. }
  destruct Hcase as [H|[H|[H|H]]];
    pose proof (Qmul_inject_le _ _ cs H ltac:(lra)) as M;
    rewrite inject_Z_plus in M; change (inject_Z 1) with 1 in M.
  - left. lra.
  - right; left. lra.
  - right; right; left. lra.
  - right; right; right. lra.
Qed.
End SpiralGeometry.



(** ** Flow layout: filling a row *)

(** The target box of an image considered with [R] of the row width and [V]
    of the page height remaining *)
Definition box_width (aw R : Q) : Q := Qmin R (aw * (8 # 10)).
Definition box_height (ah V : Q) : Q := Qmin V (ah * (6 # 10)).

(** [row_filled aw ah V R row R']: starting with [R] of the row width
    remaining, the entries of [row] were accepted one after the other, each
    while more than 50 points remained and each fitted to its target box,
    and [R'] remains after the last. *)
Inductive row_filled (aw ah V : Q) : Q -> list Flow.img_info -> Q -> Prop :=
| row_done R : row_filled aw ah V R [] R
| row_accept R e row R' :
    50 < R ->
    calculate_image_dimensions (Flow.path e) (box_width aw R) (box_height ah V)
      = Some (Flow.width e, Flow.height e, Flow.scale e) ->
    row_filled aw ah V (R - (Flow.width e + 10)) row R' ->
    row_filled aw ah V R (e :: row) R'.

Lemma row_filled_app aw ah V R row R1 row' R2 :
  row_filled aw ah V R row R1 -> row_filled aw ah V R1 row' R2 ->
  row_filled aw ah V R (row ++ row') R2.
Proof.
  induction 1 as [|R e row R1 HR He Hrow IH]; intro H2; simpl.
  - exact H2.
  - apply row_accept; auto.
Qed.

(** The row height the loop keeps: [max] of 0 and of the heights so far *)
Definition running_height (row : list Flow.img_info) (row_height : Q) : Q :=
  fold_left Qmax (map Flow.height row) row_height.

Lemma running_height_app row row' h :
  running_height (row ++ row') h = running_height row' (running_height row h).
Proof. unfold running_height. now rewrite map_app, fold_left_app. Qed.

(** The files among [files[idx : idx']] whose probe succeeds *)
Definition probed (files : list file) (idx idx' : nat) : list file :=
  filter probe_ok (firstn (idx' - idx) (skipn idx files)).

Lemma probed_refl files idx : probed files idx idx = [].
Proof. unfold probed. now rewrite Nat.sub_diag. Qed.

Lemma probed_step files idx idx' img :
  nth_error files idx = Some img -> (idx < idx')%nat ->
  probed files idx idx' =
  ((if probe_ok img then [img] else []) ++ probed files (S idx) idx')%list.
Proof.
  intros Hn Hlt. unfold probed.
  replace (idx' - idx)%nat with (S (idx' - S idx)) by lia.
  assert (E : skipn idx files = img :: skipn (S idx) files).
  { clear Hlt. revert idx Hn. induction files as [|a files IH]; intros idx Hn.
    - destruct idx; discriminate.
    - destruct idx as [|idx]; simpl in *.
      + congruence.
      + apply IH. exact Hn. }
  rewrite E. simpl. destruct (probe_ok img); reflexivity.
Qed.

Section FillRow.
Variables (files : list file) (aw ah V : Q).

(** What one run of the row loop does, from any state of the loop *)
Lemma fill_row_spec (fuel : nat) :
  forall (row : list Flow.img_info) (rowh R : Q) (idx : nat),
  (length files - idx <= fuel)%nat ->
  exists new R' idx',
    Flow.fill_row fuel files aw ah V row rowh R idx
      = ((row ++ new)%list, running_height new rowh, R', idx') /\
    row_filled aw ah V R new R' /\
    (idx <= idx')%nat /\ (idx' <= Nat.max idx (length files))%nat /\
    ((idx' < length files)%nat -> R' <= 50) /\
    map Flow.path new = probed files idx idx'.
Proof.
  induction fuel as [|fuel IH]; intros row rowh R idx Hfuel.
  - exists [], R, idx. simpl. rewrite app_nil_r, probed_refl.
    repeat split; try lia; constructor.
  - simpl.
    destruct (Nat.ltb_spec idx (length files)) as [Hlt|Hge]; simpl.
    2:{ exists [], R, idx. rewrite app_nil_r, probed_refl.
        repeat split; try lia; constructor. }
    destruct (Qltb 50 R) eqn:HR.
    2:{ exists [], R, idx. rewrite app_nil_r, probed_refl.
        apply Qltb_ge in HR.
        repeat split; try lia; try (intro; exact HR); constructor. }
    apply Qltb_lt in HR.
    destruct (nth_error files idx) as [img|] eqn:En.
    2:{ apply nth_error_None in En. lia. }
    fold (box_width aw R). fold (box_height ah V).
    destruct (calculate_image_dimensions img (box_width aw R) (box_height ah V))
      as [[[w h] s]|] eqn:Ec.
    + (* the probe succeeded: the fitted width never exceeds what remains *)
      assert (Hw : w <= R).
      { pose proof Ec as Ec'. apply calculate_image_dimensions_Some in Ec'.
        destruct Ec' as (ow & oh & _ & Hw0 & Hh0 & Es & Ew & _).
        pose proof (fit_width_le (N2Q ow) (N2Q oh) (box_width aw R) (box_height ah V)
                      (N2Q_pos _ Hw0)) as Hle.
        rewrite Ew, Es. eapply Qle_trans; [exact Hle|]. apply Q.le_min_l. }
      apply Qle_bool_iff in Hw. rewrite Hw.
      destruct (IH (row ++ [Flow.mkInfo img w h s])%list (Qmax rowh h)
                   (R - (w + 10)) (idx + 1)%nat ltac:(lia))
        as (new & R' & idx' & Hrun & Hfilled & Hle1 & Hle2 & Hstop & Hpaths).
      exists (Flow.mkInfo img w h s :: new), R', idx'.
      rewrite Hrun, <- app_assoc. simpl.
      repeat split; try lia.
      * apply row_accept; simpl; assumption.
      * exact Hstop.
      * rewrite Hpaths. rewrite (probed_step files idx idx' img En ltac:(lia)).
        assert (Hp : probe_ok img = true).
        { destruct (probe_ok img) eqn:P; [reflexivity|].
          apply (calculate_image_dimensions_None img (box_width aw R) (box_height ah V))
            in P. congruence. }
        rewrite Hp, Nat.add_1_r. reflexivity.
    + (* the probe failed: the file is skipped *)
      destruct (IH row rowh R (idx + 1)%nat ltac:(lia))
        as (new & R' & idx' & Hrun & Hfilled & Hle1 & Hle2 & Hstop & Hpaths).
      exists new, R', idx'. rewrite Hrun.
      repeat split; try lia; try assumption.
      rewrite Hpaths. rewrite (probed_step files idx idx' img En ltac:(lia)).
      apply calculate_image_dimensions_None in Ec.
      rewrite Ec, Nat.add_1_r. reflexivity.
Qed.
End FillRow.

(** *** Sums and maxima *)

Lemma fold_Qplus_init (l : list Q) (a : Q) : fold_left Qplus l a == a + Qsum l.
Proof.
  unfold Qsum. revert a. induction l as [|x l IH]; intro a; simpl.
  - ring.
  - rewrite (IH (a + x)), (IH (0 + x)). ring.
Qed.

Lemma Qsum_cons (x : Q) (l : list Q) : Qsum (x :: l) == x + Qsum l.
Proof. unfold Qsum at 1. simpl. rewrite fold_Qplus_init. ring. Qed.

Lemma fold_Qmax_ge_init (t : list Q) (a : Q) : a <= fold_left Qmax t a.
Proof.
  revert a. induction t as [|b t IH]; intro a; simpl; [apply Qle_refl|].
  eapply Qle_trans; [apply (Q.le_max_l a b)|apply IH].
Qed.

Lemma fold_Qmax_ge_in (t : list Q) (a x : Q) : In x t -> x <= fold_left Qmax t a.
Proof.
  revert a. induction t as [|b t IH]; intros a Hin; [destruct Hin|].
  simpl. destruct Hin as [->|Hin].
  - eapply Qle_trans; [apply (Q.le_max_r a x)|apply fold_Qmax_ge_init].
  - apply IH. exact Hin.
Qed.

Lemma fold_Qmax_le (t : list Q) (a B : Q) :
  a <= B -> Forall (fun x => x <= B) t -> fold_left Qmax t a <= B.
Proof.
  revert a. induction t as [|b t IH]; intros a Ha Ht; simpl; [exact Ha|].
  inversion Ht; subst. apply IH; [|assumption]. apply Q.max_lub; assumption.
Qed.

Lemma fold_Qmax_proper (t : list Q) (a b : Q) :
  a == b -> fold_left Qmax t a == fold_left Qmax t b.
Proof.
  revert a b. induction t as [|c t IH]; intros a b E; simpl; [exact E|].
  apply IH. rewrite E. reflexivity.
Qed.

(** *** What an accepted row satisfies *)

Definition row_width (row : list Flow.img_info) : Q :=
  Qsum (map Flow.width row) + inject_Z ((Z.of_nat (length row) - 1) * 10).

Lemma row_filled_facts aw ah V R row R' :
  row_filled aw ah V R row R' ->
  0 < V -> 0 < ah -> R <= aw ->
  Forall (fun e => 0 < Flow.width e /\ 0 < Flow.height e /\
                   Flow.width e <= aw * (8 # 10) /\
                   Flow.height e <= V /\ Flow.height e <= ah * (6 # 10)) row /\
  Qsum (map Flow.width row) + 10 * nat2Q (length row) == R - R' /\
  (row <> [] -> -10 <= R') /\ R' <= R.
Proof.
  intros H HV Hah. induction H as [R|R e row R' HR He Hrow IH]; intro HRaw.
  - split; [constructor|]. split; [|split].
    + unfold Qsum, nat2Q. simpl. ring.
    + intro H. congruence.
    + apply Qle_refl.
  - apply calculate_image_dimensions_Some in He.
    destruct He as (ow & oh & _ & Hw0 & Hh0 & Es & Ew & Eh).
    pose proof (N2Q_pos _ Hw0) as Pw. pose proof (N2Q_pos _ Hh0) as Ph.
    assert (Bw : 0 < box_width aw R) by (unfold box_width; apply Q.min_glb_lt; lra).
    assert (Bh : 0 < box_height ah V) by (unfold box_height; apply Q.min_glb_lt; lra).
    pose proof (fit_width_le (N2Q ow) (N2Q oh) (box_width aw R) (box_height ah V) Pw)
      as L1.
    pose proof (fit_height_le (N2Q ow) (N2Q oh) (box_width aw R) (box_height ah V) Ph)
      as L2.
    pose proof (fit_width_pos (N2Q ow) (N2Q oh) _ _ Pw Ph Bw Bh) as P1.
    pose proof (fit_height_pos (N2Q ow) (N2Q oh) _ _ Pw Ph Bw Bh) as P2.
    rewrite <- Es in L1, L2, P1, P2. rewrite <- Ew in L1, P1. rewrite <- Eh in L2, P2.
    pose proof (Q.le_min_l R (aw * (8 # 10))) as M1.
    pose proof (Q.le_min_r R (aw * (8 # 10))) as M2.
    pose proof (Q.le_min_l V (ah * (6 # 10))) as M3.
    pose proof (Q.le_min_r V (ah * (6 # 10))) as M4.
    fold (box_width aw R) in M1, M2. fold (box_height ah V) in M3, M4.
    destruct (IH ltac:(lra)) as (F & S & N & L).
    split; [constructor; [repeat split; lra|exact F]|].
    split; [|split].
    + simpl map. rewrite Qsum_cons. simpl length. rewrite nat2Q_S. lra.
    + intros _. destruct row as [|e' row].
      * inversion Hrow; subst. lra.
      * assert (-10 <= R') by (apply N; congruence). lra.
    + lra.
Qed.

Lemma nat2Q_pred (n : nat) :
  (1 <= n)%nat -> inject_Z ((Z.of_nat n - 1) * 10) == 10 * nat2Q n - 10.
Proof.
  intro H. rewrite inject_Z_mult, inject_Z_sub. unfold nat2Q.
  change (inject_Z 10) with 10. change (inject_Z 1) with 1. ring.
Qed.

(** The widths of a row and the gaps between them fit the available width. *)
Lemma row_filled_width aw ah V row R' :
  row_filled aw ah V aw row R' -> 0 < V -> 0 < ah -> row <> [] ->
  0 <= row_width row /\ row_width row <= aw.
Proof.
  intros H HV Hah Hne.
  destruct (row_filled_facts _ _ _ _ _ _ H HV Hah (Qle_refl aw)) as (F & S & N & L).
  specialize (N Hne). unfold row_width.
  assert (Hlen : (1 <= length row)%nat) by (destruct row; [congruence|simpl; lia]).
  rewrite (nat2Q_pred _ Hlen).
  assert (Hs : 0 <= Qsum (map Flow.width row)).
  { clear - F. induction F as [|e row He F IH]; [unfold Qsum; simpl; lra|].
    simpl map. rewrite Qsum_cons. lra. }
  pose proof (nat2Q_le 1 (length row) Hlen) as Hl.
  change (nat2Q 1) with 1 in Hl. split; lra.
Qed.

(** The row height kept by the loop is the largest height in the row; it is
    what the drawing loop recomputes. *)
Lemma running_height_max aw ah V R row R' :
  row_filled aw ah V R row R' -> 0 < V -> 0 < ah -> R <= aw -> row <> [] ->
  running_height row 0 == Qmaximum (map Flow.height row) /\
  0 < running_height row 0 /\ running_height row 0 <= V /\
  Forall (fun e => Flow.height e <= running_height row 0) row.
Proof.
  intros H HV Hah HR Hne.
  destruct (row_filled_facts _ _ _ _ _ _ H HV Hah HR) as (F & _).
  destruct row as [|e row]; [congruence|].
  inversion F as [|? ? He F']; subst.
  assert (E : running_height (e :: row) 0 == Qmaximum (map Flow.height (e :: row))).
  { unfold running_height. simpl. apply fold_Qmax_proper.
    apply Q.max_r. lra. }
  split; [exact E|]. split; [|split].
  - rewrite E. simpl. eapply Qlt_le_trans; [|apply fold_Qmax_ge_init]. tauto.
  - unfold running_height. apply fold_Qmax_le; [lra|].
    rewrite Forall_map. eapply Forall_impl; [|exact F]. simpl. tauto.
  - rewrite Forall_forall. intros x Hx. unfold running_height.
    apply fold_Qmax_ge_in. apply in_map. exact Hx.
Qed.

(** ** Flow layout: stacking rows on a page *)

(** [page_filled files aw ah V idx rows V' idx']: starting at file [idx] with
    [V] of the page height remaining, the rows of [rows] were accepted one
    after the other, each while more than 50 points of height remained; the
    last accepted row ends before file [idx'] and leaves [V']. *)
Inductive page_filled (files : list file) (aw ah : Q)
  : Q -> nat -> list (list Flow.img_info) -> Q -> nat -> Prop :=
| page_done V idx : page_filled files aw ah V idx [] V idx
| page_row V idx row R' idx1 rows V' idx' :
    50 < V -> (idx < idx1 <= length files)%nat -> row <> [] ->
    row_filled aw ah V aw row R' ->
    map Flow.path row = probed files idx idx1 ->
    ((idx1 < length files)%nat -> R' <= 50) ->
    page_filled files aw ah (V - (running_height row 0 + 10)) idx1 rows V' idx' ->
    page_filled files aw ah V idx (row :: rows) V' idx'.

Lemma probed_nonempty_lt files idx idx' :
  probed files idx idx' <> [] -> (idx < idx')%nat.
Proof.
  intro H. destruct (Nat.lt_ge_cases idx idx') as [L|G]; [exact L|].
  exfalso. apply H. unfold probed.
  replace (idx' - idx)%nat with O by lia. reflexivity.
Qed.

Section FillPage.
Variables (files : list file) (aw ah : Q).

Lemma fill_page_spec (fuel : nat) :
  forall (pages : list (list Flow.img_info)) (V : Q) (idx : nat),
  V <= ah -> (S (length files - idx) <= fuel)%nat ->
  exists new V' idx1 idx',
    Flow.fill_page fuel files aw ah pages V idx = ((pages ++ new)%list, V', idx') /\
    page_filled files aw ah V idx new V' idx1 /\
    (idx <= idx1 <= idx')%nat /\ (idx' <= Nat.max idx (length files))%nat /\
    probed files idx1 idx' = [] /\
    ((idx' < length files)%nat -> V' <= 50 \/ aw <= 50) /\
    V' <= V.
Proof.
  induction fuel as [|fuel IH]; intros pages V idx HV Hfuel; [lia|].
  simpl.
  destruct (Nat.ltb_spec idx (length files)) as [Hlt|Hge]; simpl.
  2:{ exists [], V, idx, idx. rewrite app_nil_r, probed_refl.
      split; [reflexivity|]. split; [constructor|]. split; [lia|].
      split; [lia|]. split; [reflexivity|]. split; [lia|apply Qle_refl]. }
  destruct (Qltb 50 V) eqn:H50.
  2:{ exists [], V, idx, idx. rewrite app_nil_r, probed_refl.
      apply Qltb_ge in H50.
      split; [reflexivity|]. split; [constructor|]. split; [lia|].
      split; [lia|]. split; [reflexivity|].
      split; [intros _; left; exact H50|apply Qle_refl]. }
  apply Qltb_lt in H50.
  destruct (fill_row_spec files aw ah V (length files - idx) [] 0 aw idx (le_n _))
    as (row & R' & idxr & Hrun & Hfilled & Hle1 & Hle2 & Hstop & Hpaths).
  rewrite Hrun. simpl.
  destruct row as [|e row].
  - (* nothing was accepted: the page is finished *)
    exists [], V, idx, idxr. rewrite app_nil_r.
    split; [reflexivity|]. split; [constructor|]. split; [lia|].
    split; [lia|]. split; [rewrite <- Hpaths; reflexivity|].
    split; [|apply Qle_refl].
    intro Hi. right. inversion Hfilled; subst. apply Hstop. exact Hi.
  - assert (Hah : 0 < ah) by lra.
    destruct (running_height_max aw ah V aw (e :: row) R' Hfilled ltac:(lra) Hah
                (Qle_refl aw) ltac:(congruence)) as (_ & Hpos & HleV & _).
    pose proof HleV as Hb. apply Qle_bool_iff in Hb.
    change (fold_left Qmax (map Flow.height row) (Qmax 0 (Flow.height e)))
      with (running_height (e :: row) 0).
    rewrite Hb.
    assert (Hprog : (idx < idxr)%nat).
    { apply (probed_nonempty_lt files). rewrite <- Hpaths. discriminate. }
    destruct (IH (pages ++ [e :: row])%list (V - (running_height (e :: row) 0 + 10))
                 idxr ltac:(lra) ltac:(lia))
      as (new & V' & idx1 & idx' & Hrun' & Hpage & Hi1 & Hi2 & Hprobed & Hstop' & HV').
    exists ((e :: row) :: new), V', idx1, idx'.
    rewrite Hrun', <- app_assoc. simpl.
    split; [reflexivity|]. split.
    { apply (page_row files aw ah V idx (e :: row) R' idxr); try assumption;
        try lia; congruence. }
    split; [lia|]. split; [lia|]. split; [exact Hprobed|].
    split; [exact Hstop'|lra].
Qed.

(** [arrange_images_on_page] from file [idx] on *)
Lemma arrange_images_on_page_spec (idx : nat) :
  exists rows V' idx1 idx',
    Flow.arrange_images_on_page files idx aw ah = (rows, idx') /\
    page_filled files aw ah ah idx rows V' idx1 /\
    (idx <= idx1 <= idx')%nat /\ (idx' <= Nat.max idx (length files))%nat /\
    probed files idx1 idx' = [] /\
    ((idx' < length files)%nat -> V' <= 50 \/ aw <= 50).
Proof.
  unfold Flow.arrange_images_on_page.
  destruct (fill_page_spec (S (length files - idx)) [] ah idx (Qle_refl ah) (le_n _))
    as (new & V' & idx1 & idx' & Hrun & Hpage & Hi1 & Hi2 & Hprobed & Hstop & _).
  rewrite Hrun. exists new, V', idx1, idx'. simpl. auto 10.
Qed.
End FillPage.

(** ** Flow layout: target boxes and thresholds *)

(** An entry of a row was fitted to the target box for some remaining width
    [R > 50] and remaining height [V > 50], at the largest scale that fits. *)
Definition fitted_to_box (aw ah : Q) (e : Flow.img_info) : Prop :=
  exists R V ow oh,
    50 < R /\ 50 < V /\ size (Flow.path e) = Some (ow, oh) /\
    let bw := Qmin R (aw * (8 # 10)) in
    let bh := Qmin V (ah * (6 # 10)) in
    calculate_image_dimensions (Flow.path e) bw bh
      = Some (Flow.width e, Flow.height e, Flow.scale e) /\
    Flow.width e = N2Q ow * Flow.scale e /\
    Flow.height e = N2Q oh * Flow.scale e /\
    Flow.width e <= bw /\ Flow.height e <= bh /\
    (Flow.width e == bw \/ Flow.height e == bh) /\
    (forall s', N2Q ow * s' <= bw -> N2Q oh * s' <= bh -> s' <= Flow.scale e).

Lemma row_filled_fitted aw ah V R row R' :
  row_filled aw ah V R row R' -> 50 < V -> Forall (fitted_to_box aw ah) row.
Proof.
  intros H HV. induction H as [R|R e row R' HR He Hrow IH]; constructor; [|exact IH].
  pose proof He as He'. apply calculate_image_dimensions_Some in He'.
  destruct He' as (ow & oh & Hs & Hw0 & Hh0 & Es & Ew & Eh).
  pose proof (N2Q_pos _ Hw0) as Pw. pose proof (N2Q_pos _ Hh0) as Ph.
  exists R, V, ow, oh. cbv zeta.
  fold (box_width aw R). fold (box_height ah V).
  repeat split; try assumption.
  - rewrite Ew, Es. apply fit_width_le. exact Pw.
  - rewrite Eh, Es. apply fit_height_le. exact Ph.
  - rewrite Ew, Eh, Es. apply fit_tight; assumption.
  - intros s' H1 H2. rewrite Es. apply fit_largest; assumption.
Qed.

Lemma page_filled_fitted files aw ah V idx rows V' idx' :
  page_filled files aw ah V idx rows V' idx' ->
  Forall (Forall (fitted_to_box aw ah)) rows.
Proof.
  induction 1; constructor; [|assumption].
  eapply row_filled_fitted; eassumption.
Qed.



(** ** Flow layout: the page loop *)

Lemma page_filled_idx files aw ah V idx rows V' idx' :
  page_filled files aw ah V idx rows V' idx' ->
  (idx <= idx')%nat /\ (rows <> [] -> (idx < idx')%nat).
Proof.
  induction 1 as [|V idx row R' idx1 rows V' idx' H50 Hi Hne Hrow Hp Hs Hrest IH].
  - split; [lia|congruence].
  - destruct IH as [IH _]. split; [lia|]. intros _. lia.
Qed.

(** A page that holds a row consumes at least one file. *)
Lemma arrange_images_on_page_progress files aw ah idx rows idx' :
  Flow.arrange_images_on_page files idx aw ah = (rows, idx') ->
  (idx <= idx')%nat /\ (rows <> [] -> (idx < idx')%nat).
Proof.
  intro E.
  destruct (arrange_images_on_page_spec files aw ah idx)
    as (rows0 & V' & idx1 & idx0 & Hrun & Hpage & Hi1 & _).
  rewrite Hrun in E. injection E as <- <-.
  destruct (page_filled_idx _ _ _ _ _ _ _ _ Hpage) as [H1 H2].
  split; [lia|]. intro Hne. specialize (H2 Hne). lia.
Qed.

(** The loop of [create_pdf_from_images] never runs out of fuel: any fuel of
    at least [len(image_files) - current_idx] gives the same result. *)
Lemma pdf_loop_fuel files A4H aw ah (fuel1 : nat) :
  forall (fuel2 idx pn : nat),
  (length files - idx <= fuel1)%nat -> (length files - idx <= fuel2)%nat ->
  Flow.pdf_loop fuel1 files A4H aw ah idx pn = Flow.pdf_loop fuel2 files A4H aw ah idx pn.
Proof.
  induction fuel1 as [|fuel1 IH]; intros fuel2 idx pn H1 H2.
  - destruct fuel2 as [|fuel2]; [reflexivity|]. simpl.
    destruct (Nat.ltb_spec idx (length files)); [lia|reflexivity].
  - destruct fuel2 as [|fuel2]; simpl.
    + destruct (Nat.ltb_spec idx (length files)); [lia|reflexivity].
    + destruct (Nat.ltb_spec idx (length files)) as [Hlt|]; [|reflexivity].
      destruct (Flow.arrange_images_on_page files idx aw ah) as [rows next] eqn:E.
      destruct (arrange_images_on_page_progress _ _ _ _ _ _ E) as [_ Hprog].
      destruct rows as [|row rows].
      * rewrite (IH fuel2 (idx + 1)%nat (pn + 1)%nat) by lia.
        rewrite (IH fuel2 (idx + 1)%nat pn) by lia. reflexivity.
      * specialize (Hprog ltac:(discriminate)).
        rewrite (IH fuel2 next (pn + 1)%nat) by lia.
        rewrite (IH fuel2 next pn) by lia. reflexivity.
Qed.

(** The rectangles that a trace draws *)
Definition drawn_rects (tr : list event) : list rect :=
  flat_map (fun e => match e with
                     | DrawImage _ x y w h => [mkRect x y w h]
                     | _ => []
                     end) tr.

Definition has_show_page (tr : list event) : bool :=
  existsb (fun e => match e with ShowPage => true | _ => false end) tr.

Lemma pages_of_no_show_page (tr : list event) :
  has_show_page tr = false -> pages_of tr = [drawn_rects tr].
Proof.
  induction tr as [|e tr IH]; intro H; [reflexivity|].
  simpl in H. apply orb_false_iff in H. destruct H as [He Htr].
  simpl. rewrite (IH Htr). destruct e; try reflexivity. discriminate.
Qed.

Lemma pages_of_show_page (tr1 tr2 : list event) :
  has_show_page tr1 = false ->
  pages_of (tr1 ++ ShowPage :: tr2) = drawn_rects tr1 :: pages_of tr2.
Proof.
  induction tr1 as [|e tr1 IH]; intro H; [reflexivity|].
  simpl in H. apply orb_false_iff in H. destruct H as [He Htr].
  simpl. rewrite (IH Htr). destruct e; try reflexivity. discriminate.
Qed.

(** A probed file is left without a row exactly when the available area does
    not exceed the 50 point minimum in one direction. *)
Lemma flow_no_row_iff_small files aw ah idx img :
  nth_error files idx = Some img -> probe_ok img = true ->
  fst (Flow.arrange_images_on_page files idx aw ah) = [] <-> aw <= 50 \/ ah <= 50.
Proof.
  intros Hn Hp.
  assert (Hlt : (idx < length files)%nat) by (apply nth_error_Some; congruence).
  destruct (arrange_images_on_page_spec files aw ah idx)
    as (rows & V' & idx1 & idx' & Hrun & Hpage & Hi1 & Hi2 & Hprobed & Hstop).
  rewrite Hrun. simpl. split.
  - intros ->. inversion Hpage; subst.
    destruct (Nat.eq_dec idx' idx1) as [->|Hne].
    + destruct (Hstop Hlt); [right|left]; assumption.
    + exfalso. rewrite (probed_step files idx1 idx' img Hn ltac:(lia)), Hp in Hprobed.
      discriminate.
  - intros Hsmall. destruct rows as [|row rows]; [reflexivity|]. exfalso.
    inversion Hpage as [|? ? ? R' ? ? ? ? H50 _ Hne Hrow _ _ _]; subst.
    destruct Hsmall as [Hs|Hs]; [|lra].
    inversion Hrow; subst; [congruence|]. lra.
Qed.



(** ** A file whose probe fails *)

(** In grid and spiral layout the placements are the files whose probe
    succeeds, in order. *)
Lemma olist_slots_paths {P : Type} (path : P -> file) (slot : nat -> file -> option P)
  (Hpath : forall i img p, slot i img = Some p -> path p = img)
  (Hsome : forall i img, probe_ok img = true <-> slot i img <> None)
  (l : list file) (s : nat) :
  map path (flat_map (fun '(i, a) => olist (slot i a)) (combine (seq s (length l)) l))
  = filter probe_ok l.
Proof.
  revert s. induction l as [|a l IH]; intro s; [reflexivity|].
  simpl. rewrite map_app, IH.
  destruct (slot s a) as [p|] eqn:E; simpl.
  - rewrite (Hpath _ _ _ E).
    assert (Hp : probe_ok a = true) by (apply (Hsome s a); congruence).
    rewrite Hp. reflexivity.
  - destruct (probe_ok a) eqn:Hp; [|reflexivity].
    exfalso. apply (Hsome s a) in Hp. congruence.
Qed.

Lemma centered_fit_some (c : rect) (img : file) :
  probe_ok img = true <-> centered_fit c img <> None.
Proof.
  unfold centered_fit. split.
  - intro Hp. destruct (probe_ok_Some img (rw c) (rh c) Hp) as (w & h & s & E).
    rewrite E. discriminate.
  - intro H. destruct (probe_ok img) eqn:Hp; [reflexivity|].
    apply (calculate_image_dimensions_None img (rw c) (rh c)) in Hp.
    rewrite Hp in H. congruence.
Qed.

Lemma grid_arrange_paths (l : list file) (aw ah : Q) :
  map Grid.path (Grid.arrange_all_images_on_single_page l aw ah) = filter probe_ok l.
Proof.
  rewrite grid_arrange_slots. unfold enumerate.
  apply (olist_slots_paths Grid.path (grid_slot (length l) aw ah)).
  - apply grid_slot_path.
  - intros i img. rewrite (centered_fit_some (grid_cell (length l) aw ah i) img).
    unfold grid_slot. destruct (centered_fit _ img) as [[r s]|]; split; congruence.
Qed.

Lemma spiral_arrange_paths (l : list file) (aw ah : Q) :
  map Spiral.path (Spiral.arrange_all_images_on_single_page l aw ah) = filter probe_ok l.
Proof.
  rewrite spiral_arrange_slots. unfold enumerate.
  apply (olist_slots_paths Spiral.path (spiral_slot (length l) aw ah)).
  - apply spiral_slot_path.
  - intros i img. rewrite (centered_fit_some (spiral_cell (length l) aw ah i) img).
    unfold spiral_slot. destruct (centered_fit _ img) as [[r s]|]; split; congruence.
Qed.

(** Four square images and a last file that cannot be opened.  The pixel
    sizes are powers of two, so that the ratios computed for them are exact
    in binary floating point as well. *)
Definition square_image (n : string) : file :=
  mkFile n ".png" true (Some (1024, 1024)%N) true.

Definition corrupt_image (n : string) : file := mkFile n ".png" true None true.

Definition four_and_corrupt : list file :=
  [square_image "a.png"; square_image "b.png"; square_image "c.png";
   square_image "d.png"; corrupt_image "e.png"]%string.

Definition count_show_page (tr : list event) : nat :=
  length (filter (fun e => match e with ShowPage => true | _ => false end) tr).

(** C6, at the failing input: on the A4 page the four square images fill the
    first page; the file that cannot be probed then starts a second page,
    which stays empty, and the page counter ends at 2.  Without that file
    the same four images give one page and no [showPage]. *)
Theorem flow_corrupt_file_advances_page :
  let with_corrupt := Flow.create_pdf_from_images A4_points four_and_corrupt in
  let without := Flow.create_pdf_from_images A4_points (firstn 4 four_and_corrupt) in
  count_show_page with_corrupt = 1%nat /\
  last with_corrupt (Print ErrorLine) = Print (TotalPages 2) /\
  map (@length rect) (pages_of with_corrupt) = [4%nat; 0%nat] /\
  count_show_page without = 0%nat /\
  last without (Print ErrorLine) = Print (TotalPages 1) /\
  map (@length rect) (pages_of without) = [4%nat].
Proof. vm_compute. repeat split; reflexivity. Qed.

(** ** A folder without supported images *)

(** The test [get_image_files] applies to a directory entry *)
Definition is_supported_image (e : file) : bool :=
  is_file e && existsb (String.eqb (lower (suffix e))) SUPPORTED_FORMATS.

Lemma filter_none {A : Type} (f : A -> bool) (l : list A) :
  (forall a, In a l -> f a = false) -> filter f l = [].
Proof.
  induction l as [|a l IH]; intro H; [reflexivity|].
  simpl. rewrite (H a (or_introl eq_refl)). apply IH.
  intros b Hb. apply H. now right.
Qed.

Lemma get_image_files_none (entries : list file) :
  (forall e, In e entries -> is_supported_image e = false) ->
  get_image_files (Some entries) = Some [].
Proof.
  intro H. unfold get_image_files.
  change (fun file_path : file =>
            is_file file_path &&
            existsb (String.eqb (lower (suffix file_path))) SUPPORTED_FORMATS)
    with is_supported_image.
  rewrite (filter_none _ _ H). reflexivity.
Qed.

(** C9: when the folder holds no supported image file, each of the three
    programs reports it and returns with exit status 0 before any layout
    work: nothing but the two console lines is in the trace (no canvas is
    created, nothing is drawn, no page is shown).  The engine itself, given
    no image, returns at once as well: [create_pdf_from_images] only prints
    that no image files were found, and the arrangement is empty. *)
Theorem no_images_short_circuit (A4 : Q * Q) (entries : list file) :
  (forall e, In e entries -> is_supported_image e = false) ->
  let report := [Print NoSupportedImageFiles; Print SupportedFormatsAre] in
  get_image_files (Some entries) = Some [] /\
  Flow.main A4 (Some entries) = (report, 0%Z) /\
  Grid.main A4 (Some entries) = (report, 0%Z) /\
  Spiral.main A4 (Some entries) = (report, 0%Z) /\
  filter is_canvas_call report = [] /\
  Flow.create_pdf_from_images A4 [] = [Print NoImageFilesFound] /\
  Grid.create_pdf_from_images A4 [] = [Print NoImageFilesFound] /\
  Spiral.create_pdf_from_images A4 [] = [Print NoImageFilesFound] /\
  (forall aw ah, Flow.arrange_images_on_page [] 0 aw ah = ([], 0%nat)) /\
  (forall aw ah, Grid.arrange_all_images_on_single_page [] aw ah = []) /\
  (forall aw ah, Spiral.arrange_all_images_on_single_page [] aw ah = []).
Proof.
  intros H report. pose proof (get_image_files_none entries H) as E.
  unfold Flow.main, Grid.main, Spiral.main, main_with. rewrite E.
  repeat split.
Qed.

Lemma no_images_short_circuit_witness :
  let entries := [mkFile "notes.txt" ".txt" true None false;
                  mkFile "album.png" ".png" false None false]%string in
  Flow.main A4_points (Some entries)
  = ([Print NoSupportedImageFiles; Print SupportedFormatsAre], 0%Z).
Proof.
  intro entries.
  apply (no_images_short_circuit A4_points entries).
  intros e [<-|[<-|[]]]; reflexivity.
Defined.

Lemma in_firstn_in {A : Type} (n : nat) (l : list A) (x : A) :
  In x (firstn n l) -> In x l.
Proof.
  revert l. induction n as [|n IH]; intros [|a l] H; simpl in *; try tauto.
  destruct H as [->|H]; [now left|right; now apply IH].
Qed.

Lemma in_skipn_in {A : Type} (n : nat) (l : list A) (x : A) :
  In x (skipn n l) -> In x l.
Proof.
  revert l. induction n as [|n IH]; intros [|a l] H; simpl in *; try tauto.
  right. now apply IH.
Qed.

(** ** Aspect ratio *)

(** [w] by [h] is the pixel size of [img] multiplied by one common scale
    factor [s = min(mw / ow, mh / oh)] for some bounds [mw], [mh]. *)
Definition keeps_aspect (img : file) (w h : Q) : Prop :=
  exists ow oh mw mh,
    size img = Some (ow, oh) /\
    let s := Qmin (mw / N2Q ow) (mh / N2Q oh) in
    w = N2Q ow * s /\ h = N2Q oh * s /\
    w * N2Q oh == h * N2Q ow /\
    (~ h == 0 -> w / h == N2Q ow / N2Q oh).

Lemma calculate_image_dimensions_aspect img mw mh w h s :
  calculate_image_dimensions img mw mh = Some (w, h, s) -> keeps_aspect img w h.
Proof.
  intro H. apply calculate_image_dimensions_Some in H.
  destruct H as (ow & oh & Hs & Hw0 & Hh0 & Es & Ew & Eh).
  exists ow, oh, mw, mh. split; [exact Hs|]. cbv zeta. rewrite <- Es.
  split; [exact Ew|]. split; [exact Eh|].
  pose proof (N2Q_pos _ Hw0) as Pw. pose proof (N2Q_pos _ Hh0) as Ph.
  split.
  - rewrite Ew, Eh. ring.
  - intro Hne. rewrite Ew, Eh. rewrite Eh in Hne. field. split; [lra|].
    intro Hz. apply Hne. rewrite Hz. ring.
Qed.

Lemma grid_draw_images_in arr k img x y w h :
  In (DrawImage img x y w h) (fst (Grid.draw_images arr k)) ->
  exists p, In p arr /\ Grid.path p = img /\ Grid.width p = w /\ Grid.height p = h /\
            x = MARGIN + Grid.x p /\ y = MARGIN + Grid.y p.
Proof.
  revert k. induction arr as [|p arr IH]; intros k Hin; [destruct Hin|].
  simpl in Hin. destruct (draw_ok (Grid.path p)).
  - destruct (Grid.draw_images arr (S k)) as [tr n] eqn:E. simpl in Hin.
    destruct Hin as [Hd|[Hd|Hin]]; [|discriminate|].
    + injection Hd as <- <- <- <- <-. exists p. repeat split. now left.
    + specialize (IH (S k)). rewrite E in IH.
      destruct (IH Hin) as (q & Hq & Hrest). exists q. split; [now right|exact Hrest].
  - destruct (Grid.draw_images arr k) as [tr n] eqn:E. simpl in Hin.
    destruct Hin as [Hd|Hin]; [discriminate|].
    specialize (IH k). rewrite E in IH.
    destruct (IH Hin) as (q & Hq & Hrest). exists q. split; [now right|exact Hrest].
Qed.

Lemma spiral_draw_images_in arr k img x y w h :
  In (DrawImage img x y w h) (fst (Spiral.draw_images arr k)) ->
  exists p, In p arr /\ Spiral.path p = img /\ Spiral.width p = w /\
            Spiral.height p = h /\
            x = MARGIN + Spiral.x p /\ y = MARGIN + Spiral.y p.
Proof.
  revert k. induction arr as [|p arr IH]; intros k Hin; [destruct Hin|].
  simpl in Hin. destruct (draw_ok (Spiral.path p)).
  - destruct (Spiral.draw_images arr (S k)) as [tr n] eqn:E. simpl in Hin.
    destruct Hin as [Hd|[Hd|Hin]]; [|discriminate|].
    + injection Hd as <- <- <- <- <-. exists p. repeat split. now left.
    + specialize (IH (S k)). rewrite E in IH.
      destruct (IH Hin) as (q & Hq & Hrest). exists q. split; [now right|exact Hrest].
  - destruct (Spiral.draw_images arr k) as [tr n] eqn:E. simpl in Hin.
    destruct Hin as [Hd|Hin]; [discriminate|].
    specialize (IH k). rewrite E in IH.
    destruct (IH Hin) as (q & Hq & Hrest). exists q. split; [now right|exact Hrest].
Qed.

Lemma flow_draw_row_in row cx cy rowh img x y w h :
  In (DrawImage img x y w h) (Flow.draw_row row cx cy rowh) ->
  exists e, In e row /\ Flow.path e = img /\ Flow.width e = w /\ Flow.height e = h.
Proof.
  revert cx. induction row as [|e row IH]; intros cx Hin; [destruct Hin|].
  simpl in Hin. destruct (draw_ok (Flow.path e)).
  - destruct Hin as [Hd|[Hd|Hin]]; [|discriminate|].
    + injection Hd as <- _ _ <- <-. exists e. repeat split. now left.
    + destruct (IH _ Hin) as (q & Hq & Hrest). exists q. split; [now right|exact Hrest].
  - destruct Hin as [Hd|Hin]; [discriminate|].
    destruct (IH _ Hin) as (q & Hq & Hrest). exists q. split; [now right|exact Hrest].
Qed.

Lemma flow_draw_rows_in rows aw cy img x y w h :
  In (DrawImage img x y w h) (Flow.draw_rows rows aw cy) ->
  exists row e, In row rows /\ In e row /\
                Flow.path e = img /\ Flow.width e = w /\ Flow.height e = h.
Proof.
  revert cy. induction rows as [|row rows IH]; intros cy Hin; [destruct Hin|].
  simpl in Hin. apply in_app_or in Hin. destruct Hin as [Hin|Hin].
  - apply flow_draw_row_in in Hin. destruct Hin as (e & He & Hrest).
    exists row, e. split; [now left|]. split; assumption.
  - destruct (IH _ Hin) as (r & e & Hr & Hrest). exists r, e.
    split; [now right|exact Hrest].
Qed.

(** [img] drawn at size [w] by [h] was sized by [calculate_image_dimensions]. *)
Definition sized_by_fit (img : file) (w h : Q) : Prop :=
  exists mw mh s, calculate_image_dimensions img mw mh = Some (w, h, s).

Lemma page_filled_paths files aw ah V idx rows V' idx' :
  page_filled files aw ah V idx rows V' idx' ->
  forall r e, In r rows -> In e r -> In (Flow.path e) files.
Proof.
  induction 1 as [|V idx row R' idx1 rows V' idx' _ _ _ _ Hp _ _ IH];
    intros r e Hr He; [destruct Hr|].
  destruct Hr as [<-|Hr]; [|eapply IH; eassumption].
  assert (Hin : In (Flow.path e) (map Flow.path row)) by (now apply in_map).
  rewrite Hp in Hin. unfold probed in Hin.
  apply filter_In in Hin. destruct Hin as [Hin _].
  apply in_firstn_in in Hin. eapply in_skipn_in. exact Hin.
Qed.

Lemma flow_pdf_loop_in files A4H aw ah fuel :
  forall idx pn img x y w h,
  In (DrawImage img x y w h) (fst (Flow.pdf_loop fuel files A4H aw ah idx pn)) ->
  In img files /\ sized_by_fit img w h.
Proof.
  induction fuel as [|fuel IH]; intros idx pn img x y w h Hin; [destruct Hin|].
  simpl in Hin.
  destruct (idx <? length files)%nat; [|destruct Hin].
  destruct (arrange_images_on_page_spec files aw ah idx)
    as (rows & V' & idx1 & idx' & Hrun & Hpage & Hi1 & Hi2 & Hprobed & Hstop).
  rewrite Hrun in Hin.
  assert (Hpage_tr : forall tr,
            In (DrawImage img x y w h) tr ->
            tr = match rows with
                 | [] => match nth_error files idx with
                         | Some img_path => Flow.draw_single img_path aw ah
                         | None => []
                         end
                 | _ :: _ => Flow.draw_rows rows aw (A4H - MARGIN)
                 end ->
            In img files /\ sized_by_fit img w h).
  { intros tr Htr ->. destruct rows as [|row rows].
    - destruct (nth_error files idx) as [f|] eqn:En; [|destruct Htr].
      unfold Flow.draw_single in Htr.
      destruct (calculate_image_dimensions f aw ah) as [[[w0 h0] s0]|] eqn:Ec;
        [|destruct Htr].
      destruct (draw_ok f).
      + destruct Htr as [Hd|[Hd|[]]]; [|discriminate].
        injection Hd as <- _ _ <- <-. split.
        * eapply nth_error_In; eassumption.
        * exists aw, ah, s0. exact Ec.
      + destruct Htr as [Hd|[]]. discriminate.
    - apply flow_draw_rows_in in Htr.
      destruct Htr as (r & e & Hr & He & <- & <- & <-).
      pose proof (page_filled_fitted _ _ _ _ _ _ _ _ Hpage) as F.
      rewrite Forall_forall in F. specialize (F r Hr).
      rewrite Forall_forall in F. destruct (F e He) as (R & V & ow & oh & _ & _ & _ & Hfit).
      cbv zeta in Hfit. destruct Hfit as (Hc & _). split.
      + eapply page_filled_paths; eassumption.
      + eexists _, _, _. exact Hc. }
  destruct rows as [|row rows].
  - destruct (idx + 1 <? length files)%nat.
    + destruct (Flow.pdf_loop fuel files A4H aw ah (idx + 1) (pn + 1)) as [tr n] eqn:E.
      simpl in Hin. destruct Hin as [Hd|Hin]; [discriminate|].
      apply in_app_or in Hin. destruct Hin as [Hin|[Hd|Hin]]; [|discriminate|].
      * eapply Hpage_tr; [exact Hin|reflexivity].
      * apply (IH (idx + 1)%nat (pn + 1)%nat _ x y). rewrite E. exact Hin.
    + destruct (Flow.pdf_loop fuel files A4H aw ah (idx + 1) pn) as [tr n] eqn:E.
      simpl in Hin. destruct Hin as [Hd|Hin]; [discriminate|].
      apply in_app_or in Hin. destruct Hin as [Hin|Hin].
      * eapply Hpage_tr; [exact Hin|reflexivity].
      * apply (IH (idx + 1)%nat pn _ x y). rewrite E. exact Hin.
  - destruct (idx' <? length files)%nat.
    + destruct (Flow.pdf_loop fuel files A4H aw ah idx' (pn + 1)) as [tr n] eqn:E.
      simpl in Hin. destruct Hin as [Hd|Hin]; [discriminate|].
      apply in_app_or in Hin. destruct Hin as [Hin|[Hd|Hin]]; [|discriminate|].
      * eapply Hpage_tr; [exact Hin|reflexivity].
      * apply (IH idx' (pn + 1)%nat _ x y). rewrite E. exact Hin.
    + destruct (Flow.pdf_loop fuel files A4H aw ah idx' pn) as [tr n] eqn:E.
      simpl in Hin. destruct Hin as [Hd|Hin]; [discriminate|].
      apply in_app_or in Hin. destruct Hin as [Hin|Hin].
      * eapply Hpage_tr; [exact Hin|reflexivity].
      * apply (IH idx' pn _ x y). rewrite E. exact Hin.
Qed.

(** What the three layouts emit for [img]: a [drawImage] call of one of the
    programs, an entry of [arranged_images] in grid or spiral layout, or an
    entry of a row of [page_images] in flow layout. *)
Definition emits (A4 : Q * Q) (files : list file) (img : file) (w h : Q) : Prop :=
  (exists x y, In (DrawImage img x y w h) (Flow.create_pdf_from_images A4 files)) \/
  (exists x y, In (DrawImage img x y w h) (Grid.create_pdf_from_images A4 files)) \/
  (exists x y, In (DrawImage img x y w h) (Spiral.create_pdf_from_images A4 files)) \/
  (exists aw ah p,
     In p (Grid.arrange_all_images_on_single_page files aw ah) /\
     Grid.path p = img /\ Grid.width p = w /\ Grid.height p = h) \/
  (exists aw ah p,
     In p (Spiral.arrange_all_images_on_single_page files aw ah) /\
     Spiral.path p = img /\ Spiral.width p = w /\ Spiral.height p = h) \/
  (exists aw ah idx row e,
     In row (fst (Flow.arrange_images_on_page files idx aw ah)) /\ In e row /\
     Flow.path e = img /\ Flow.width e = w /\ Flow.height e = h).

Lemma grid_arrange_sized files aw ah p :
  In p (Grid.arrange_all_images_on_single_page files aw ah) ->
  In (Grid.path p) files /\ sized_by_fit (Grid.path p) (Grid.width p) (Grid.height p).
Proof.
  intro Hp. apply grid_arrange_in in Hp. destruct Hp as (i & im & Hn & Hs).
  pose proof (grid_slot_path _ _ _ _ _ _ Hs) as Hpath. rewrite Hpath.
  split; [eapply nth_error_In; exact Hn|].
  unfold grid_slot, centered_fit in Hs.
  destruct (calculate_image_dimensions im _ _) as [[[w0 h0] s0]|] eqn:Ec;
    [|discriminate].
  injection Hs as <-. simpl. eexists _, _, _. exact Ec.
Qed.

Lemma spiral_arrange_sized files aw ah p :
  In p (Spiral.arrange_all_images_on_single_page files aw ah) ->
  In (Spiral.path p) files /\
  sized_by_fit (Spiral.path p) (Spiral.width p) (Spiral.height p).
Proof.
  intro Hp. apply spiral_arrange_in in Hp. destruct Hp as (i & im & Hn & Hs).
  pose proof (spiral_slot_path _ _ _ _ _ _ Hs) as Hpath. rewrite Hpath.
  split; [eapply nth_error_In; exact Hn|].
  unfold spiral_slot, centered_fit in Hs.
  destruct (calculate_image_dimensions im _ _) as [[[w0 h0] s0]|] eqn:Ec;
    [|discriminate].
  injection Hs as <-. simpl. eexists _, _, _. exact Ec.
Qed.

Lemma flow_arrange_sized files aw ah idx row e :
  In row (fst (Flow.arrange_images_on_page files idx aw ah)) -> In e row ->
  In (Flow.path e) files /\ sized_by_fit (Flow.path e) (Flow.width e) (Flow.height e).
Proof.
  intros Hr He.
  destruct (arrange_images_on_page_spec files aw ah idx)
    as (rows & V' & idx1 & idx' & Hrun & Hpage & _).
  rewrite Hrun in Hr. simpl in Hr. split.
  - eapply page_filled_paths; eassumption.
  - pose proof (page_filled_fitted _ _ _ _ _ _ _ _ Hpage) as F.
    rewrite Forall_forall in F. specialize (F row Hr).
    rewrite Forall_forall in F.
    destruct (F e He) as (R & V & ow & oh & _ & _ & _ & Hfit).
    cbv zeta in Hfit. destruct Hfit as (Hc & _). eexists _, _, _. exact Hc.
Qed.



Lemma grid_cell_depends_on_index_and_count_witness :
  let a := mkFile "a.png" ".png" true (Some (800, 600)%N) true in
  let b := mkFile "b.png" ".png" true None true in
  let b' := mkFile "b.png" ".png" true (Some (10, 10)%N) true in
  let c := mkFile "c.png" ".png" true (Some (300, 900)%N) true in
  let of_c := fun p => String.eqb (name (Grid.path p)) (name c) in
  filter of_c (Grid.arrange_all_images_on_single_page [a; b; c] 500 700)
  = filter of_c (Grid.arrange_all_images_on_single_page [a; b'; c] 500 700).
Proof.
  intros a b b' c of_c.
  refine (proj1 (grid_cell_depends_on_index_and_count [a; b; c] [a; b'; c] 500 700
                   2 c eq_refl _ _ eq_refl eq_refl)).
  - repeat constructor; simpl; intuition discriminate.
  - repeat constructor; simpl; intuition discriminate.
Defined.

(** ** Flow layout: where the rows are drawn *)

Lemma pairwise_app {A : Type} (R : A -> A -> Prop) (l1 l2 : list A) :
  pairwise R l1 -> pairwise R l2 ->
  (forall a b, In a l1 -> In b l2 -> R a b) ->
  pairwise R (l1 ++ l2).
Proof.
  unfold pairwise. intros H1 H2 H12. induction H1 as [|a l1 Ha H1 IH]; simpl.
  - exact H2.
  - constructor.
    + apply Forall_app. split; [exact Ha|].
      rewrite Forall_forall. intros b Hb. apply H12; [now left|exact Hb].
    + apply IH. intros x y Hx Hy. apply H12; [now right|exact Hy].
Qed.

Lemma drawn_rects_app tr1 tr2 :
  drawn_rects (tr1 ++ tr2) = (drawn_rects tr1 ++ drawn_rects tr2)%list.
Proof. unfold drawn_rects. apply flat_map_app. Qed.

Lemma Qmaximum_ge (l : list Q) (x : Q) : In x l -> x <= Qmaximum l.
Proof.
  destruct l as [|a t]; [intros []|]. simpl. intros [->|H].
  - apply fold_Qmax_ge_init.
  - apply fold_Qmax_ge_in. exact H.
Qed.

(** Widths of a row with a 10 point gap after each image *)
Definition span (row : list Flow.img_info) : Q :=
  Qsum (map Flow.width row) + 10 * nat2Q (length row).

Lemma span_cons e row : span (e :: row) == Flow.width e + 10 + span row.
Proof. unfold span. simpl map. rewrite Qsum_cons. simpl length. rewrite nat2Q_S. ring. Qed.

Lemma span_nonneg row :
  Forall (fun e => 0 < Flow.width e) row -> 0 <= span row.
Proof.
  induction 1 as [|e row He F IH].
  - apply Qle_bool_iff. reflexivity.
  - rewrite span_cons. lra.
Qed.

Lemma row_width_span row : row <> [] -> row_width row == span row - 10.
Proof.
  intro Hne. unfold row_width, span.
  rewrite nat2Q_pred by (destruct row; [congruence|simpl; lia]). ring.
Qed.

Lemma draw_row_geometry (row : list Flow.img_info) (cy rowh : Q) :
  Forall (fun e => 0 < Flow.width e /\ 0 < Flow.height e /\ Flow.height e <= rowh) row ->
  forall cx,
  pairwise disjoint (drawn_rects (Flow.draw_row row cx cy rowh)) /\
  Forall (fun r => 0 <= rw r /\ 0 <= rh r /\
                   cx <= rx r /\ rx r + rw r + 10 <= cx + span row /\
                   cy <= ry r /\ ry r + rh r <= cy + rowh)
         (drawn_rects (Flow.draw_row row cx cy rowh)).
Proof.
  induction 1 as [|e row He F IH]; intro cx.
  - split; constructor.
  - assert (Hsp : 0 <= span row).
    { apply span_nonneg. eapply Forall_impl; [|exact F]. simpl. tauto. }
    pose proof (span_cons e row) as Ec.
    simpl. destruct (draw_ok (Flow.path e)).
    + destruct (IH (cx + (Flow.width e + 10))) as [IH1 IH2]. simpl. split.
      * constructor; [|exact IH1].
        eapply Forall_impl; [|exact IH2]. intros q Hq. cbv beta in Hq.
        unfold disjoint. simpl. left. lra.
      * constructor.
        { simpl.
          assert ((rowh - Flow.height e) / 2 == (rowh - Flow.height e) * (1 # 2))
            by field.
          repeat split; lra. }
        eapply Forall_impl; [|exact IH2]. intros q Hq. simpl in Hq. lra.
    + destruct (IH cx) as [IH1 IH2]. simpl. split; [exact IH1|].
      eapply Forall_impl; [|exact IH2]. intros q Hq. simpl in Hq. lra.
Qed.

(** Heights of the rows of a page with a 10 point gap after each row *)
Definition stack (rows : list (list Flow.img_info)) : Q :=
  Qsum (map (fun row => Qmaximum (map Flow.height row) + 10) rows).

(** What the page loop guarantees about a row *)
Definition row_fits (aw : Q) (row : list Flow.img_info) : Prop :=
  row <> [] /\
  Forall (fun e => 0 < Flow.width e /\ 0 < Flow.height e) row /\
  0 <= row_width row /\ row_width row <= aw.

Lemma draw_rows_geometry (aw bottom : Q) (rows : list (list Flow.img_info)) :
  Forall (row_fits aw) rows ->
  forall top, bottom <= top - stack rows + 10 ->
  pairwise disjoint (drawn_rects (Flow.draw_rows rows aw top)) /\
  Forall (fun r => inside r (mkRect MARGIN bottom aw (top - bottom)))
         (drawn_rects (Flow.draw_rows rows aw top)).
Proof.
  induction 1 as [|row rows Hrow F IH]; intros top Htop.
  - split; constructor.
  - destruct Hrow as (Hne & Hpos & Hw0 & Hw).
    set (rowh := Qmaximum (map Flow.height row)).
    assert (Hst : stack (row :: rows) == rowh + 10 + stack rows).
    { unfold stack. simpl map. rewrite Qsum_cons. reflexivity. }
    assert (Hrest : 0 <= stack rows).
    { clear - F. unfold stack. induction F as [|r rows Hr F IH].
      - unfold Qsum. simpl. lra.
      - simpl map. rewrite Qsum_cons.
        destruct Hr as (Hne & Hpos & _). destruct r as [|e r]; [congruence|].
        inversion Hpos as [|? ? He _]; subst.
        pose proof (Qmaximum_ge (map Flow.height (e :: r)) (Flow.height e)
                      (or_introl eq_refl)). lra. }
    assert (Hrowh : Forall (fun e => 0 < Flow.width e /\ 0 < Flow.height e /\
                                     Flow.height e <= rowh) row).
    { rewrite Forall_forall in Hpos |- *. intros e He.
      destruct (Hpos e He) as [P1 P2]. repeat split; try assumption.
      apply Qmaximum_ge. apply in_map. exact He. }
    assert (Hrowh_pos : 0 < rowh).
    { destruct row as [|e row]; [congruence|].
      inversion Hrowh as [|? ? He _]; subst. lra. }
    simpl. fold rowh. fold (row_width row).
    destruct (draw_row_geometry row (top - rowh) rowh Hrowh
                (MARGIN + (aw - row_width row) / 2)) as [R1 R2].
    destruct (IH (top - rowh - 10) ltac:(lra)) as [IH1 IH2].
    pose proof (row_width_span row Hne) as Hspan.
    assert (Hhalf : (aw - row_width row) / 2 == (aw - row_width row) * (1 # 2))
      by field.
    rewrite drawn_rects_app. split.
    + apply pairwise_app; [exact R1|exact IH1|].
      intros a b Ha Hb.
      rewrite Forall_forall in R2, IH2.
      specialize (R2 a Ha). specialize (IH2 b Hb). cbv beta in R2, IH2.
      unfold inside in IH2. simpl in IH2. unfold disjoint.
      right; right; right. lra.
    + apply Forall_app. split.
      * eapply Forall_impl; [|exact R2]. intros r Hr. cbv beta in Hr.
        unfold inside. simpl. lra.
      * eapply Forall_impl; [|exact IH2]. intros r Hr. cbv beta in Hr.
        unfold inside in *. simpl in *. lra.
Qed.

Lemma page_filled_rows files aw ah V idx rows V' idx' :
  page_filled files aw ah V idx rows V' idx' -> V <= ah ->
  Forall (row_fits aw) rows /\
  stack rows == V - V' /\ (rows <> [] -> -10 <= V').
Proof.
  induction 1 as [|V idx row R' idx1 rows V' idx' H50 Hi Hne Hrow Hp Hs Hrest IH];
    intro HV.
  - split; [constructor|]. split; [unfold stack, Qsum; simpl; ring|congruence].
  - assert (Hah : 0 < ah) by lra.
    destruct (running_height_max aw ah V aw row R' Hrow ltac:(lra) Hah
                (Qle_refl aw) Hne) as (Emax & Hpos & HleV & _).
    destruct (row_filled_width aw ah V row R' Hrow ltac:(lra) Hah Hne) as [W0 W1].
    destruct (row_filled_facts _ _ _ _ _ _ Hrow ltac:(lra) Hah (Qle_refl aw))
      as (Fe & _).
    destruct (IH ltac:(lra)) as (F & St & N).
    split; [|split].
    + constructor; [|exact F]. repeat split; try assumption.
      eapply Forall_impl; [|exact Fe]. simpl. tauto.
    + unfold stack in *. simpl map. rewrite Qsum_cons, St, <- Emax. ring.
    + intros _. destruct rows as [|r rows].
      * inversion Hrest; subst. lra.
      * apply N. discriminate.
Qed.

(** ** No overlap, and every placement within its bounds *)

Lemma map_flat_map_olist {A B C : Type} (f : B -> C) (slot : nat -> A -> option B)
  (l : list (nat * A)) :
  map f (flat_map (fun '(i, a) => olist (slot i a)) l)
  = flat_map (fun '(i, a) => olist (option_map f (slot i a))) l.
Proof.
  induction l as [|[i a] l IH]; [reflexivity|].
  simpl. rewrite map_app, IH. destruct (slot i a); reflexivity.
Qed.

Lemma grid_slot_inside n aw ah i img p :
  (1 <= n)%nat -> grid_fits n aw ah ->
  grid_slot n aw ah i img = Some p -> inside (grid_rect p) (grid_cell n aw ah i).
Proof.
  intros Hn Hfit Hs. unfold grid_slot in Hs.
  destruct (centered_fit (grid_cell n aw ah i) img) as [[r s]|] eqn:E; [|discriminate].
  injection Hs as <-. unfold grid_rect. simpl.
  replace (mkRect (rx r) (ry r) (rw r) (rh r)) with r by (destruct r; reflexivity).
  eapply centered_fit_inside; [| |exact E]; rewrite (grid_cell_eq n aw ah); simpl.
  - apply (grid_cw_pos n aw ah); assumption.
  - apply (grid_ch_pos n aw ah); assumption.
Qed.

Lemma spiral_slot_inside n aw ah i img p :
  (1 <= n)%nat -> 0 < aw -> 0 < ah -> (i < n)%nat ->
  spiral_slot n aw ah i img = Some p -> inside (spiral_rect p) (spiral_cell n aw ah i).
Proof.
  intros Hn Pw Ph Hi Hs. unfold spiral_slot in Hs.
  destruct (centered_fit (spiral_cell n aw ah i) img) as [[r s]|] eqn:E; [|discriminate].
  injection Hs as <-. unfold spiral_rect. simpl.
  replace (mkRect (rx r) (ry r) (rw r) (rh r)) with r by (destruct r; reflexivity).
  pose proof (spiral_cell_size_pos n aw ah Hn Pw Ph) as Pc.
  eapply centered_fit_inside; [| |exact E]; unfold spiral_cell; simpl; exact Pc.
Qed.

(** The available area on the page, inside the margins *)
Definition page_area (aw ah : Q) : rect := mkRect MARGIN MARGIN aw ah.

Lemma draw_single_inside img aw ah :
  0 < aw -> 0 < ah ->
  Forall (fun r => inside r (page_area aw ah)) (drawn_rects (Flow.draw_single img aw ah)).
Proof.
  intros Pw Ph. unfold Flow.draw_single.
  destruct (calculate_image_dimensions img aw ah) as [[[w h] s]|] eqn:E; [|constructor].
  destruct (draw_ok img); [|constructor]. simpl. constructor; [|constructor].
  pose proof (centered_fit_inside (mkRect 0 0 aw ah) img) as C.
  unfold centered_fit in C. simpl in C. rewrite E in C.
  specialize (C _ _ Pw Ph eq_refl). unfold inside, page_area in *. simpl in *.
  assert ((aw - w) / 2 == aw / 2 - w / 2) by field.
  assert ((ah - h) / 2 == ah / 2 - h / 2) by field.
  lra.
Qed.



(** A tall image, and the A4 page filled with 11026 copies of it *)
Definition tall_image : file := mkFile "t.png" ".png" true (Some (1, 1000)%N) true.


(** * Part III: further properties of the programs *)

(** ** [calculate_image_dimensions] *)



Lemma Qmin_div_pos (a b k : Q) : 0 < k -> Qmin (a / k) (b / k) == Qmin a b / k.
Proof.
  intro Hk.
  destruct (Q.min_spec a b) as [[Hlt E]|[Hle E]]; rewrite E.
  - apply Q.min_l. apply Qlt_le_weak in Hlt.
    unfold Qdiv. apply Qmult_le_compat_r; [exact Hlt|].
    apply Qlt_le_weak. apply Qinv_lt_0_compat. exact Hk.
  - apply Q.min_r. unfold Qdiv. apply Qmult_le_compat_r; [exact Hle|].
    apply Qlt_le_weak. apply Qinv_lt_0_compat. exact Hk.
Qed.



(** ** The shape of the grid *)

(** X3: For every count N >= 1 the grid is square or one column wider than it is
    tall, and no row is entirely empty. *)
Theorem calculate_grid_layout_near_square (n : Z) :
  (1 <= n)%Z ->
  let '(rows, cols) := Grid.calculate_grid_layout n in
  (cols - 1 <= rows <= cols)%Z /\ ((rows - 1) * cols < n)%Z.
Proof.
  intro Hn.
  pose proof (ceil_sqrt_spec n Hn) as Hs. cbv zeta in Hs.
  pose proof (ceil_div_spec n (Grid.ceil_sqrt n) ltac:(lia)) as Hr. cbv zeta in Hr.
  unfold Grid.calculate_grid_layout.
  repeat match goal with
         | |- context [(?a =? ?b)%Z] => destruct (Z.eqb_spec a b); [lia|]
         | |- context [(?a <=? ?b)%Z] => destruct (Z.leb_spec a b); [lia|]
         end.
  set (c := Grid.ceil_sqrt n) in *. set (r := Grid.ceil_div n c) in *.
  split; [|lia]. split; nia.
Qed.

Lemma calculate_grid_layout_near_square_witness :
  (1 <= 1000)%Z /\
  (let '(rows, cols) := Grid.calculate_grid_layout 1000 in
   (cols - 1 <= rows <= cols)%Z).
Proof.
  split; [lia|].
  pose proof (calculate_grid_layout_near_square 1000 ltac:(lia)) as H.
  destruct (Grid.calculate_grid_layout 1000) as [rows cols]. apply H.
Defined.

(** ** The spiral as the number of images grows *)

Lemma walk_prefix (n m : nat) :
  forall x y dx dy k t dc,
  walk n x y dx dy k t dc = firstn n (walk (n + m) x y dx dy k t dc).
Proof.
  induction n as [|n IH]; intros; [reflexivity|].
  simpl. f_equal.
  destruct (t + 1 =? k)%Z; [destruct ((dc + 1) mod 2 =? 0)%Z|]; apply IH.
Qed.

(** X4: The coordinates generated for [n] images are the first [n] of those
    generated for any larger number: adding images never moves a cell that
    was already assigned. *)
Theorem generate_spiral_positions_prefix (n m : Z) :
  (0 <= n <= m)%Z ->
  Spiral.generate_spiral_positions n
  = firstn (Z.to_nat n) (Spiral.generate_spiral_positions m).
Proof.
  intros [Hn Hm].
  rewrite <- (Z2Nat.id n Hn), <- (Z2Nat.id m ltac:(lia)), !Nat2Z.id.
  assert (Hle : (Z.to_nat n <= Z.to_nat m)%nat) by lia.
  destruct (Z.to_nat n) as [|a]; [reflexivity|].
  destruct (Z.to_nat m) as [|b]; [lia|].
  rewrite !generate_spiral_positions_walk. cbn [firstn]. f_equal.
  replace b with (a + (b - a))%nat by lia. apply walk_prefix.
Qed.

Lemma generate_spiral_positions_prefix_witness :
  (0 <= 4 <= 9)%Z /\
  Spiral.generate_spiral_positions 4
  = firstn 4 (Spiral.generate_spiral_positions 9).
Proof.
  split; [lia|].
  exact (generate_spiral_positions_prefix 4 9 ltac:(lia)).
Defined.

(** ** A failed probe in spiral layout *)

(** X5: In spiral layout the placement of the file at index [i] is the fit of
    that file into the cell of index [i] for [N] files: two runs over [N]
    files that agree on the file at [i] place it alike, and a file whose
    probe fails leaves its cell of the spiral empty (later files are not
    moved up). *)
Theorem spiral_cell_depends_on_index_and_count
  (l1 l2 : list file) (aw ah : Q) (i : nat) (img : file) :
  length l1 = length l2 ->
  NoDup (map name l1) -> NoDup (map name l2) ->
  nth_error l1 i = Some img -> nth_error l2 i = Some img ->
  let of_img := fun p => String.eqb (name (Spiral.path p)) (name img) in
  let out1 := filter of_img (Spiral.arrange_all_images_on_single_page l1 aw ah) in
  let out2 := filter of_img (Spiral.arrange_all_images_on_single_page l2 aw ah) in
  out1 = out2 /\
  (probe_ok img = false -> out1 = []) /\
  (probe_ok img = true ->
   exists p, out1 = [p] /\
     centered_fit (spiral_cell (length l1) aw ah i) img
       = Some (spiral_rect p, Spiral.scale p)).
Proof.
  intros Hlen Hnd1 Hnd2 H1 H2 of_img out1 out2.
  assert (E1 : out1 = olist (spiral_slot (length l1) aw ah i img)).
  { unfold out1, of_img. rewrite spiral_arrange_slots. unfold enumerate.
    rewrite (filter_slots_by_name Spiral.path (spiral_slot (length l1) aw ah)
               (spiral_slot_path _ _ _) img l1 0 i Hnd1 H1).
    reflexivity. }
  assert (E2 : out2 = olist (spiral_slot (length l1) aw ah i img)).
  { unfold out2, of_img. rewrite spiral_arrange_slots. unfold enumerate.
    rewrite (filter_slots_by_name Spiral.path (spiral_slot (length l2) aw ah)
               (spiral_slot_path _ _ _) img l2 0 i Hnd2 H2).
    rewrite Hlen. reflexivity. }
  split; [congruence|]. split.
  - intro Hp. rewrite E1. unfold spiral_slot, centered_fit.
    apply (calculate_image_dimensions_None img
             (rw (spiral_cell (length l1) aw ah i))
             (rh (spiral_cell (length l1) aw ah i))) in Hp.
    rewrite Hp. reflexivity.
  - intro Hp. rewrite E1. unfold spiral_slot.
    destruct (centered_fit (spiral_cell (length l1) aw ah i) img) as [[r s]|] eqn:E.
    + eexists. split; [reflexivity|]. destruct r; reflexivity.
    + exfalso. apply (centered_fit_some (spiral_cell (length l1) aw ah i) img) in Hp.
      congruence.
Qed.

Lemma spiral_cell_depends_on_index_and_count_witness :
  let a := mkFile "a.png" ".png" true (Some (800, 600)%N) true in
  let b := mkFile "b.png" ".png" true None true in
  let b' := mkFile "b.png" ".png" true (Some (10, 10)%N) true in
  let c := mkFile "c.png" ".png" true (Some (300, 900)%N) true in
  let of_c := fun p => String.eqb (name (Spiral.path p)) (name c) in
  filter of_c (Spiral.arrange_all_images_on_single_page [a; b; c] 500 700)
  = filter of_c (Spiral.arrange_all_images_on_single_page [a; b'; c] 500 700).
Proof.
  intros a b b' c of_c.
  refine (proj1 (spiral_cell_depends_on_index_and_count [a; b; c] [a; b'; c] 500 700
                   2 c eq_refl _ _ eq_refl eq_refl)).
  - repeat constructor; simpl; intuition discriminate.
  - repeat constructor; simpl; intuition discriminate.
Defined.

(** ** [get_image_files] *)

From Stdlib Require Import Permutation Sorted.

(** The sort key of [a] is not greater than that of [b]. *)
Definition name_le (a b : file) : Prop :=
  String.ltb (lower (name b)) (lower (name a)) = false.

Lemma ltb_asym (s1 s2 : string) :
  String.ltb s1 s2 = true -> String.ltb s2 s1 = false.
Proof.
  unfold String.ltb. destruct (String.compare s1 s2) eqn:E; try discriminate.
  intros _. rewrite (String.compare_antisym s2 s1), E. reflexivity.
Qed.

Lemma insert_by_name_perm (x : file) (l : list file) :
  Permutation (insert_by_name x l) (x :: l).
Proof.
  induction l as [|y l IH]; simpl; [reflexivity|].
  destruct (String.ltb (lower (name x)) (lower (name y))); [reflexivity|].
  rewrite IH. apply perm_swap.
Qed.

Lemma insert_by_name_sorted (x : file) (l : list file) :
  Sorted name_le l -> Sorted name_le (insert_by_name x l).
Proof.
  induction 1 as [|y l Hl IH Hhd]; simpl.
  - repeat constructor.
  - destruct (String.ltb (lower (name x)) (lower (name y))) eqn:E.
    + constructor; [constructor; assumption|].
      constructor. unfold name_le. apply ltb_asym. exact E.
    + constructor; [exact IH|].
      destruct l as [|z l]; simpl.
      * constructor. exact E.
      * destruct (String.ltb (lower (name x)) (lower (name z))).
        -- constructor. exact E.
        -- constructor. inversion Hhd; subst. assumption.
Qed.

Lemma sort_by_name_fold (l acc : list file) :
  Sorted name_le acc ->
  Permutation (fold_left (fun acc x => insert_by_name x acc) l acc) (acc ++ l) /\
  Sorted name_le (fold_left (fun acc x => insert_by_name x acc) l acc).
Proof.
  revert acc. induction l as [|x l IH]; intros acc Hacc; simpl.
  - rewrite app_nil_r. split; [reflexivity|exact Hacc].
  - destruct (IH (insert_by_name x acc) (insert_by_name_sorted x acc Hacc))
      as [P S].
    split; [|exact S]. eapply Permutation_trans; [exact P|].
    eapply Permutation_trans;
      [apply Permutation_app_tail; apply insert_by_name_perm|].
    simpl. apply Permutation_middle.
Qed.

Lemma sort_by_name_spec (l : list file) :
  Permutation (sort_by_name l) l /\ Sorted name_le (sort_by_name l).
Proof.
  destruct (sort_by_name_fold l [] (Sorted_nil name_le)) as [P S].
  split; [exact P|exact S].
Qed.

Lemma get_image_files_eq (entries : list file) :
  get_image_files (Some entries)
  = Some (sort_by_name (filter is_supported_image entries)).
Proof. reflexivity. Qed.

Lemma in_sort_by_name (l : list file) (f : file) :
  In f (sort_by_name l) <-> In f l.
Proof.
  destruct (sort_by_name_spec l) as [P _]. split; intro H.
  - eapply Permutation_in; [exact P|exact H].
  - eapply Permutation_in; [symmetry; exact P|exact H].
Qed.


(** ** [main] *)

Lemma main_with_outcomes (create : list file -> list event) (folder : option (list file)) :
  (forall f l, In NewCanvas (create (f :: l))) ->
  (snd (main_with create folder) = 1%Z <-> folder = None) /\
  (snd (main_with create folder) = 0%Z <-> folder <> None) /\
  (In NewCanvas (fst (main_with create folder)) <->
   exists entries f,
     folder = Some entries /\ In f entries /\ is_supported_image f = true).
Proof.
  intro Hc. unfold main_with. destruct folder as [entries|].
  - rewrite get_image_files_eq.
    assert (Hin : forall f, In f (sort_by_name (filter is_supported_image entries))
                            <-> In f entries /\ is_supported_image f = true).
    { intro f. rewrite in_sort_by_name. apply filter_In. }
    destruct (sort_by_name (filter is_supported_image entries)) as [|f files]; simpl.
    + split; [split; [discriminate|discriminate]|].
      split; [split; [discriminate|reflexivity]|].
      split.
      * intros [H|[H|[]]]; discriminate.
      * intros (entries' & f & Ee & Hf & Hs). injection Ee as <-.
        exfalso. apply (proj2 (Hin f) (conj Hf Hs)).
    + split; [split; [discriminate|discriminate]|].
      split; [split; [discriminate|reflexivity]|].
      split; [|intros _; apply Hc].
      intros _. exists entries, f. split; [reflexivity|].
      apply (Hin f). now left.
  - simpl. split; [split; reflexivity|].
    split; [split; [discriminate|congruence]|].
    split.
    + intros [H|[]]. discriminate.
    + intros (entries & f & E & _). discriminate.
Qed.

(** X7: Each of the three programs exits with status 1 exactly when the folder
    does not exist and with status 0 otherwise, and it creates a PDF canvas
    exactly when the folder holds at least one regular file with a supported
    suffix. *)
Theorem main_exit_status_and_canvas (A4 : Q * Q) (folder : option (list file)) :
  let has_image :=
    exists entries f,
      folder = Some entries /\ In f entries /\ is_supported_image f = true in
  ((snd (Flow.main A4 folder) = 1%Z <-> folder = None) /\
   (snd (Flow.main A4 folder) = 0%Z <-> folder <> None) /\
   (In NewCanvas (fst (Flow.main A4 folder)) <-> has_image)) /\
  ((snd (Grid.main A4 folder) = 1%Z <-> folder = None) /\
   (snd (Grid.main A4 folder) = 0%Z <-> folder <> None) /\
   (In NewCanvas (fst (Grid.main A4 folder)) <-> has_image)) /\
  ((snd (Spiral.main A4 folder) = 1%Z <-> folder = None) /\
   (snd (Spiral.main A4 folder) = 0%Z <-> folder <> None) /\
   (In NewCanvas (fst (Spiral.main A4 folder)) <-> has_image)).
Proof.
  intro has_image. destruct A4 as [A4_WIDTH A4_HEIGHT].
  split; [|split]; apply main_with_outcomes; intros f l.
  - unfold Flow.create_pdf_from_images.
    destruct (Flow.pdf_loop _ _ _ _ _ _ _) as [tr n]. simpl. auto.
  - unfold Grid.create_pdf_from_images.
    destruct (Grid.draw_images _ _) as [tr n]. simpl. auto.
  - unfold Spiral.create_pdf_from_images.
    destruct (Spiral.draw_images _ _) as [tr n]. simpl. auto.
Qed.

(** ** What is drawn *)

(** The files that a trace draws, in order *)
Definition drawn_files (tr : list event) : list file :=
  flat_map (fun e => match e with
                     | DrawImage img _ _ _ _ => [img]
                     | _ => []
                     end) tr.

Lemma drawn_files_app tr1 tr2 :
  drawn_files (tr1 ++ tr2) = (drawn_files tr1 ++ drawn_files tr2)%list.
Proof. unfold drawn_files. apply flat_map_app. Qed.

Lemma filter_filter_andb {A : Type} (f g : A -> bool) (l : list A) :
  filter g (filter f l) = filter (fun a => f a && g a) l.
Proof.
  induction l as [|a l IH]; [reflexivity|].
  simpl. destruct (f a); simpl; [destruct (g a)|]; now rewrite IH.
Qed.

Lemma firstn_add {A : Type} (a b : nat) (l : list A) :
  firstn (a + b) l = (firstn a l ++ firstn b (skipn a l))%list.
Proof.
  revert l. induction a as [|a IH]; intro l; [reflexivity|].
  destruct l as [|x l]; simpl.
  - now rewrite firstn_nil.
  - now rewrite IH.
Qed.

Lemma probed_split files idx mid idx' :
  (idx <= mid <= idx')%nat ->
  probed files idx idx' = (probed files idx mid ++ probed files mid idx')%list.
Proof.
  intros [H1 H2]. unfold probed.
  replace (idx' - idx)%nat with ((mid - idx) + (idx' - mid))%nat by lia.
  rewrite firstn_add, filter_app, skipn_skipn.
  replace (mid - idx + idx)%nat with mid by lia. reflexivity.
Qed.

Lemma probed_all files : probed files 0 (length files) = filter probe_ok files.
Proof.
  unfold probed. rewrite Nat.sub_0_r. simpl. now rewrite firstn_all.
Qed.

Lemma probed_beyond files idx idx' :
  (length files <= idx)%nat -> probed files idx idx' = [].
Proof.
  intro H. unfold probed. rewrite skipn_all2 by exact H.
  now rewrite firstn_nil.
Qed.

Lemma page_filled_concat files aw ah V idx rows V' idx' :
  page_filled files aw ah V idx rows V' idx' ->
  concat (map (map Flow.path) rows) = probed files idx idx'.
Proof.
  induction 1 as [|V idx row R' idx1 rows V' idx' H50 Hi Hne Hrow Hp Hs Hrest IH].
  - now rewrite probed_refl.
  - simpl. rewrite Hp, IH.
    destruct (page_filled_idx _ _ _ _ _ _ _ _ Hrest) as [Hle _].
    symmetry. apply probed_split. lia.
Qed.

Lemma flow_draw_row_files row cx cy rowh :
  drawn_files (Flow.draw_row row cx cy rowh) = filter draw_ok (map Flow.path row).
Proof.
  revert cx. induction row as [|e row IH]; intro cx; [reflexivity|].
  simpl. destruct (draw_ok (Flow.path e)); simpl; now rewrite IH.
Qed.

Lemma flow_draw_rows_files rows aw cy :
  drawn_files (Flow.draw_rows rows aw cy)
  = filter draw_ok (concat (map (map Flow.path) rows)).
Proof.
  revert cy. induction rows as [|row rows IH]; intro cy; [reflexivity|].
  simpl. rewrite drawn_files_app, flow_draw_row_files, IH, filter_app. reflexivity.
Qed.

Lemma flow_draw_single_files img aw ah :
  drawn_files (Flow.draw_single img aw ah)
  = filter draw_ok (if probe_ok img then [img] else []).
Proof.
  unfold Flow.draw_single.
  destruct (calculate_image_dimensions img aw ah) as [[[w h] s]|] eqn:E.
  - assert (Hp : probe_ok img = true).
    { destruct (probe_ok img) eqn:P; [reflexivity|].
      apply (calculate_image_dimensions_None img aw ah) in P. congruence. }
    rewrite Hp. simpl. destruct (draw_ok img); reflexivity.
  - apply calculate_image_dimensions_None in E. rewrite E. reflexivity.
Qed.

Lemma drawn_files_print m tr : drawn_files (Print m :: tr) = drawn_files tr.
Proof. reflexivity. Qed.

Lemma drawn_files_show_page tr : drawn_files (ShowPage :: tr) = drawn_files tr.
Proof. reflexivity. Qed.

Lemma flow_pdf_loop_files files A4H aw ah (fuel : nat) :
  forall idx pn, (length files - idx <= fuel)%nat ->
  drawn_files (fst (Flow.pdf_loop fuel files A4H aw ah idx pn))
  = filter draw_ok (probed files idx (length files)).
Proof.
  induction fuel as [|fuel IH]; intros idx pn Hfuel.
  - simpl. rewrite probed_beyond by lia. reflexivity.
  - cbn [Flow.pdf_loop]. destruct (Nat.ltb_spec idx (length files)) as [Hlt|Hge].
    2:{ simpl. rewrite probed_beyond by lia. reflexivity. }
    destruct (arrange_images_on_page_spec files aw ah idx)
      as (rows & V' & idx1 & idx' & Hrun & Hpage & Hi1 & Hi2 & Hprobed & Hstop).
    rewrite Hrun.
    pose proof (page_filled_concat _ _ _ _ _ _ _ _ Hpage) as Hcat.
    destruct (page_filled_idx _ _ _ _ _ _ _ _ Hpage) as [_ Hprog].
    destruct rows as [|row rows].
    + destruct (nth_error files idx) as [img|] eqn:En.
      2:{ apply nth_error_None in En. lia. }
      rewrite (probed_step files idx (length files) img En Hlt), filter_app.
      rewrite <- (flow_draw_single_files img aw ah).
      replace (S idx) with (idx + 1)%nat by lia.
      destruct (idx + 1 <? length files)%nat.
      * pose proof (IH (idx + 1)%nat (pn + 1)%nat ltac:(lia)) as IHn.
        destruct (Flow.pdf_loop fuel files A4H aw ah (idx + 1) (pn + 1)) as [tr n].
        cbn [fst] in *.
        rewrite drawn_files_print, drawn_files_app, drawn_files_show_page, IHn.
        reflexivity.
      * pose proof (IH (idx + 1)%nat pn ltac:(lia)) as IHn.
        destruct (Flow.pdf_loop fuel files A4H aw ah (idx + 1) pn) as [tr n].
        cbn [fst] in *.
        rewrite drawn_files_print, drawn_files_app, IHn. reflexivity.
    + specialize (Hprog ltac:(discriminate)).
      assert (Hmax : (idx' <= length files)%nat) by lia.
      rewrite (probed_split files idx idx1 (length files)) by lia.
      rewrite (probed_split files idx1 idx' (length files)) by lia.
      rewrite Hprobed, <- Hcat. rewrite app_nil_l, filter_app.
      rewrite <- (flow_draw_rows_files (row :: rows) aw (A4H - MARGIN)).
      destruct (idx' <? length files)%nat.
      * pose proof (IH idx' (pn + 1)%nat ltac:(lia)) as IHn.
        destruct (Flow.pdf_loop fuel files A4H aw ah idx' (pn + 1)) as [tr n].
        cbn [fst] in *.
        rewrite drawn_files_print, drawn_files_app, drawn_files_show_page, IHn.
        reflexivity.
      * pose proof (IH idx' pn ltac:(lia)) as IHn.
        destruct (Flow.pdf_loop fuel files A4H aw ah idx' pn) as [tr n].
        cbn [fst] in *.
        rewrite drawn_files_print, drawn_files_app, IHn. reflexivity.
Qed.

Lemma grid_draw_images_files arr k :
  drawn_files (fst (Grid.draw_images arr k)) = filter draw_ok (map Grid.path arr) /\
  snd (Grid.draw_images arr k) = (k + length (filter draw_ok (map Grid.path arr)))%nat /\
  has_show_page (fst (Grid.draw_images arr k)) = false /\
  drawn_rects (fst (Grid.draw_images arr k))
  = map (fun p => mkRect (MARGIN + Grid.x p) (MARGIN + Grid.y p)
                         (Grid.width p) (Grid.height p))
        (filter (fun p => draw_ok (Grid.path p)) arr).
Proof.
  revert k. induction arr as [|p arr IH]; intro k; simpl.
  - repeat split. lia.
  - destruct (draw_ok (Grid.path p)).
    + destruct (IH (S k)) as (I1 & I2 & I3 & I4).
      destruct (Grid.draw_images arr (S k)) as [tr n]. simpl in *.
      rewrite I1, I2, I3, I4. repeat split. lia.
    + destruct (IH k) as (I1 & I2 & I3 & I4).
      destruct (Grid.draw_images arr k) as [tr n]. simpl in *.
      rewrite I1, I3, I4. repeat split. exact I2.
Qed.

Lemma spiral_draw_images_files arr k :
  drawn_files (fst (Spiral.draw_images arr k)) = filter draw_ok (map Spiral.path arr) /\
  snd (Spiral.draw_images arr k)
  = (k + length (filter draw_ok (map Spiral.path arr)))%nat /\
  has_show_page (fst (Spiral.draw_images arr k)) = false /\
  drawn_rects (fst (Spiral.draw_images arr k))
  = map (fun p => mkRect (MARGIN + Spiral.x p) (MARGIN + Spiral.y p)
                         (Spiral.width p) (Spiral.height p))
        (filter (fun p => draw_ok (Spiral.path p)) arr).
Proof.
  revert k. induction arr as [|p arr IH]; intro k; simpl.
  - repeat split. lia.
  - destruct (draw_ok (Spiral.path p)).
    + destruct (IH (S k)) as (I1 & I2 & I3 & I4).
      destruct (Spiral.draw_images arr (S k)) as [tr n]. simpl in *.
      rewrite I1, I2, I3, I4. repeat split. lia.
    + destruct (IH k) as (I1 & I2 & I3 & I4).
      destruct (Spiral.draw_images arr k) as [tr n]. simpl in *.
      rewrite I1, I3, I4. repeat split. exact I2.
Qed.

(** The files that a run can draw: the probe and the drawing succeed. *)
Definition drawable (f : file) : bool := probe_ok f && draw_ok f.


(** ** Pages *)

(** Events that do not touch the page structure *)
Definition quiet (e : event) : bool :=
  match e with
  | DrawImage _ _ _ _ _ => false
  | ShowPage => false
  | _ => true
  end.

Lemma pages_of_quiet_only (tr : list event) :
  forallb quiet tr = true -> pages_of tr = [[]].
Proof.
  induction tr as [|e tr IH]; intro H; [reflexivity|].
  simpl in H. apply andb_true_iff in H. destruct H as [He Htr].
  simpl. rewrite (IH Htr). destruct e; try reflexivity; discriminate.
Qed.

Lemma pages_of_nonempty (tr : list event) : pages_of tr <> [].
Proof.
  induction tr as [|e tr IH]; [discriminate|].
  simpl. destruct e; try exact IH; [|discriminate].
  destruct (pages_of tr); [exact IH|discriminate].
Qed.

Lemma pages_of_quiet_cons (e : event) (tr : list event) :
  quiet e = true -> pages_of (e :: tr) = pages_of tr.
Proof. destruct e; intro H; try reflexivity; discriminate. Qed.

Lemma pages_of_quiet_app (pre tr : list event) :
  forallb quiet pre = true -> pages_of (pre ++ tr) = pages_of tr.
Proof.
  induction pre as [|e pre IH]; intro H; [reflexivity|].
  simpl in H. apply andb_true_iff in H. destruct H as [He Hpre].
  simpl app. rewrite pages_of_quiet_cons by exact He. apply IH. exact Hpre.
Qed.

Lemma pages_of_app_quiet (tr post : list event) :
  forallb quiet post = true -> pages_of (tr ++ post) = pages_of tr.
Proof.
  intro H. induction tr as [|e tr IH]; simpl.
  - apply pages_of_quiet_only. exact H.
  - rewrite IH. reflexivity.
Qed.

Lemma pages_of_length (tr : list event) :
  length (pages_of tr) = S (count_show_page tr).
Proof.
  induction tr as [|e tr IH]; [reflexivity|].
  unfold count_show_page in *. simpl.
  pose proof (pages_of_nonempty tr) as Hne.
  destruct e; simpl; try exact IH.
  - destruct (pages_of tr) as [|p ps]; [congruence|]. exact IH.
  - now rewrite IH.
Qed.

Lemma count_show_page_app tr1 tr2 :
  count_show_page (tr1 ++ tr2) = (count_show_page tr1 + count_show_page tr2)%nat.
Proof. unfold count_show_page. now rewrite filter_app, length_app. Qed.

Lemma count_show_page_none tr : has_show_page tr = false -> count_show_page tr = 0%nat.
Proof.
  unfold count_show_page, has_show_page. induction tr as [|e tr IH]; intro H.
  - reflexivity.
  - simpl in H. apply orb_false_iff in H. destruct H as [He Htr].
    simpl. rewrite He. apply IH. exact Htr.
Qed.

Lemma has_show_page_app tr1 tr2 :
  has_show_page (tr1 ++ tr2) = has_show_page tr1 || has_show_page tr2.
Proof. unfold has_show_page. apply existsb_app. Qed.

Lemma flow_draw_row_no_show_page row cx cy rowh :
  has_show_page (Flow.draw_row row cx cy rowh) = false.
Proof.
  revert cx. induction row as [|e row IH]; intro cx; [reflexivity|].
  simpl. destruct (draw_ok (Flow.path e)); simpl; apply IH.
Qed.

Lemma flow_draw_rows_no_show_page rows aw cy :
  has_show_page (Flow.draw_rows rows aw cy) = false.
Proof.
  revert cy. induction rows as [|row rows IH]; intro cy; [reflexivity|].
  simpl. rewrite has_show_page_app, flow_draw_row_no_show_page, IH. reflexivity.
Qed.

Lemma flow_draw_single_no_show_page img aw ah :
  has_show_page (Flow.draw_single img aw ah) = false.
Proof.
  unfold Flow.draw_single.
  destruct (calculate_image_dimensions img aw ah) as [[[w h] s]|]; [|reflexivity].
  destruct (draw_ok img); reflexivity.
Qed.

(** What one iteration of the page loop draws, and where it goes on *)
Definition flow_page (files : list file) (A4_HEIGHT aw ah : Q) (idx : nat)
  : list event * nat :=
  let '(page_images, next_idx) := Flow.arrange_images_on_page files idx aw ah in
  match page_images with
  | [] =>
      (match nth_error files idx with
       | Some img_path => Flow.draw_single img_path aw ah
       | None => []
       end, (idx + 1)%nat)
  | _ :: _ => (Flow.draw_rows page_images aw (A4_HEIGHT - MARGIN), next_idx)
  end.

Lemma flow_page_no_show_page files A4H aw ah idx :
  has_show_page (fst (flow_page files A4H aw ah idx)) = false.
Proof.
  unfold flow_page.
  destruct (Flow.arrange_images_on_page files idx aw ah) as [[|row rows] next].
  - simpl. destruct (nth_error files idx); [|reflexivity].
    apply flow_draw_single_no_show_page.
  - apply flow_draw_rows_no_show_page.
Qed.

Lemma flow_page_next files A4H aw ah idx :
  (idx < snd (flow_page files A4H aw ah idx))%nat.
Proof.
  unfold flow_page.
  destruct (Flow.arrange_images_on_page files idx aw ah) as [rows next] eqn:E.
  destruct (arrange_images_on_page_progress _ _ _ _ _ _ E) as [_ Hprog].
  destruct rows as [|row rows]; simpl; [lia|].
  apply Hprog. discriminate.
Qed.

Lemma pdf_loop_step files A4H aw ah fuel idx pn :
  (idx < length files)%nat ->
  Flow.pdf_loop (S fuel) files A4H aw ah idx pn =
  let '(page_trace, next) := flow_page files A4H aw ah idx in
  if (next <? length files)%nat then
    let '(tr, n) := Flow.pdf_loop fuel files A4H aw ah next (pn + 1) in
    (Print (ProcessingPage pn) :: page_trace ++ ShowPage :: tr, n)
  else
    let '(tr, n) := Flow.pdf_loop fuel files A4H aw ah next pn in
    (Print (ProcessingPage pn) :: page_trace ++ tr, n).
Proof.
  intro Hlt. cbn [Flow.pdf_loop]. unfold flow_page.
  destruct (Nat.ltb_spec idx (length files)); [|lia].
  destruct (Flow.arrange_images_on_page files idx aw ah) as [[|row rows] next];
    reflexivity.
Qed.

Lemma pdf_loop_done files A4H aw ah fuel idx pn :
  (length files <= idx)%nat -> Flow.pdf_loop fuel files A4H aw ah idx pn = ([], pn).
Proof.
  intro H. destruct fuel; [reflexivity|]. simpl.
  destruct (Nat.ltb_spec idx (length files)); [lia|reflexivity].
Qed.

(** The pages of the flow document are what the iterations of the page loop
    draw, one page per iteration, and the page counter counts them. *)
Lemma flow_pdf_loop_pages files A4H aw ah (P : list rect -> Prop) :
  (forall idx, (idx < length files)%nat ->
               P (drawn_rects (fst (flow_page files A4H aw ah idx)))) ->
  forall fuel idx pn,
  (idx < length files)%nat -> (length files - idx <= fuel)%nat ->
  Forall P (pages_of (fst (Flow.pdf_loop fuel files A4H aw ah idx pn))) /\
  (snd (Flow.pdf_loop fuel files A4H aw ah idx pn) + 1
   = pn + length (pages_of (fst (Flow.pdf_loop fuel files A4H aw ah idx pn))))%nat.
Proof.
  intros HP. induction fuel as [|fuel IH]; intros idx pn Hlt Hfuel; [lia|].
  rewrite pdf_loop_step by exact Hlt.
  pose proof (flow_page_no_show_page files A4H aw ah idx) as Hns.
  pose proof (flow_page_next files A4H aw ah idx) as Hnext.
  specialize (HP idx Hlt).
  destruct (flow_page files A4H aw ah idx) as [page next]. cbn [fst snd] in *.
  destruct (Nat.ltb_spec next (length files)) as [Hmore|Hlast].
  - destruct (IH next (pn + 1)%nat Hmore ltac:(lia)) as [IH1 IH2].
    destruct (Flow.pdf_loop fuel files A4H aw ah next (pn + 1)) as [tr n].
    cbn [fst snd] in *.
    change (Print (ProcessingPage pn) :: page ++ ShowPage :: tr)
      with ((Print (ProcessingPage pn) :: page) ++ ShowPage :: tr)%list.
    rewrite pages_of_show_page by exact Hns.
    split; [constructor; assumption|]. simpl length. lia.
  - rewrite (pdf_loop_done files A4H aw ah fuel next pn Hlast). cbn [fst snd].
    rewrite app_nil_r.
    rewrite (pages_of_no_show_page (Print (ProcessingPage pn) :: page)) by exact Hns.
    split; [repeat constructor; exact HP|]. simpl. lia.
Qed.

Lemma flow_create_pages A4_WIDTH A4_HEIGHT f files :
  let aw := A4_WIDTH - 2 * MARGIN in
  let ah := A4_HEIGHT - 2 * MARGIN in
  let run := Flow.pdf_loop (length (f :: files)) (f :: files) A4_HEIGHT aw ah 0 1 in
  pages_of (Flow.create_pdf_from_images (A4_WIDTH, A4_HEIGHT) (f :: files))
  = pages_of (fst run) /\
  last (Flow.create_pdf_from_images (A4_WIDTH, A4_HEIGHT) (f :: files))
       (Print ErrorLine) = Print (TotalPages (snd run)).
Proof.
  intros aw ah run. unfold Flow.create_pdf_from_images.
  fold aw ah. fold run. destruct run as [tr n]. cbn [fst snd]. split.
  - rewrite pages_of_quiet_app by reflexivity.
    apply pages_of_app_quiet. reflexivity.
  - rewrite app_assoc.
    change [Save; Print PdfCreated; Print (TotalPages n)]
      with ([Save; Print PdfCreated] ++ [Print (TotalPages n)])%list.
    rewrite app_assoc. apply last_last.
Qed.


(** X10: In flow layout, when every file can be probed and drawn and the available
    area exceeds 50 points in both directions, no page of the document is
    left empty. *)
Theorem flow_no_empty_page
  (A4_WIDTH A4_HEIGHT : Q) (f : file) (files : list file) :
  50 < A4_WIDTH - 2 * MARGIN -> 50 < A4_HEIGHT - 2 * MARGIN ->
  Forall (fun g => drawable g = true) (f :: files) ->
  Forall (fun page => page <> [])
         (pages_of (Flow.create_pdf_from_images (A4_WIDTH, A4_HEIGHT) (f :: files))).
Proof.
  intros Hw Hh Hall.
  destruct (flow_create_pages A4_WIDTH A4_HEIGHT f files) as [Hp _].
  cbv zeta in Hp. rewrite Hp.
  apply flow_pdf_loop_pages; [|simpl; lia|lia].
  intros idx Hidx. unfold flow_page.
  set (aw := A4_WIDTH - 2 * MARGIN) in *. set (ah := A4_HEIGHT - 2 * MARGIN) in *.
  destruct (nth_error (f :: files) idx) as [img|] eqn:En.
  2:{ apply nth_error_None in En. lia. }
  rewrite Forall_forall in Hall.
  assert (Hd : forall g, In g (f :: files) -> probe_ok g = true /\ draw_ok g = true).
  { intros g Hg. apply andb_true_iff. apply (Hall g Hg). }
  destruct (Hd img (nth_error_In _ _ En)) as [Hprobe _].
  pose proof (flow_no_row_iff_small (f :: files) aw ah idx img En Hprobe) as Hsmall.
  destruct (arrange_images_on_page_spec (f :: files) aw ah idx)
    as (rows & V' & idx1 & idx' & Hrun & Hpage & _).
  rewrite Hrun in *. cbn [fst] in Hsmall.
  destruct rows as [|row rows].
  { exfalso. destruct (proj1 Hsmall eq_refl); lra. }
  cbn [fst].
  inversion Hpage as [|? ? ? R' ? ? ? ? _ _ Hne _ _ _ _]; subst.
  destruct row as [|e row]; [congruence|].
  assert (He : draw_ok (Flow.path e) = true).
  { apply Hd. eapply page_filled_paths; [exact Hpage|now left|now left]. }
  simpl. rewrite He. simpl. discriminate.
Qed.

Lemma flow_no_empty_page_witness :
  Forall (fun page => page <> [])
         (pages_of (Flow.create_pdf_from_images
                      (fst A4_points, snd A4_points) (firstn 4 four_and_corrupt))).
Proof.
  apply flow_no_empty_page.
  - reflexivity.
  - reflexivity.
  - repeat constructor.
Defined.

Lemma flow_page_geometry A4_WIDTH A4_HEIGHT files idx :
  let aw := A4_WIDTH - 2 * MARGIN in
  let ah := A4_HEIGHT - 2 * MARGIN in
  0 < aw -> 0 < ah ->
  let drawn := drawn_rects (fst (flow_page files A4_HEIGHT aw ah idx)) in
  pairwise disjoint drawn /\ Forall (fun r => inside r (page_area aw ah)) drawn.
Proof.
  intros aw ah Pw Ph drawn. subst drawn. unfold flow_page.
  destruct (arrange_images_on_page_spec files aw ah idx)
    as (rows & V' & idx1 & idx' & Hrun & Hpage & _).
  rewrite Hrun.
  destruct rows as [|row rows].
  - cbn [fst]. destruct (nth_error files idx) as [img|]; [|split; constructor].
    pose proof (draw_single_inside img aw ah Pw Ph) as Hin.
    split; [|exact Hin].
    unfold Flow.draw_single in *.
    destruct (calculate_image_dimensions img aw ah) as [[[w h] s]|]; [|constructor].
    destruct (draw_ok img); repeat constructor.
  - cbn [fst].
    destruct (page_filled_rows _ _ _ _ _ _ _ _ Hpage (Qle_refl ah)) as (F & St & N).
    specialize (N ltac:(discriminate)).
    destruct (draw_rows_geometry aw MARGIN (row :: rows) F (A4_HEIGHT - MARGIN))
      as [G1 G2].
    { unfold ah, MARGIN in *. lra. }
    split; [exact G1|].
    eapply Forall_impl; [|exact G2]. intros r Hr.
    unfold inside, page_area in *. simpl in *. unfold ah, MARGIN in *. lra.
Qed.



(** ** The single page of grid and spiral layout *)

Lemma pairwise_filter {A : Type} (R : A -> A -> Prop) (f : A -> bool) (l : list A) :
  pairwise R l -> pairwise R (filter f l).
Proof.
  unfold pairwise. induction 1 as [|a l Ha Hl IH]; simpl; [constructor|].
  destruct (f a); [|exact IH]. constructor; [|exact IH].
  rewrite Forall_forall in Ha |- *. intros b Hb.
  apply Ha. apply filter_In in Hb. tauto.
Qed.

Lemma pairwise_map_impl {A B : Type} (R : B -> B -> Prop) (g h : A -> B) (l : list A) :
  (forall a b, R (g a) (g b) -> R (h a) (h b)) ->
  pairwise R (map g l) -> pairwise R (map h l).
Proof.
  unfold pairwise. intros Hgh. induction l as [|a l IH]; simpl; intro H.
  - constructor.
  - inversion H as [|? ? Ha Hl]; subst. constructor; [|apply IH; exact Hl].
    rewrite Forall_map in Ha |- *. eapply Forall_impl; [|exact Ha].
    intros b Hb. apply Hgh. exact Hb.
Qed.

Lemma pairwise_map_filter {A B : Type} (R : B -> B -> Prop) (g : A -> B)
  (f : A -> bool) (l : list A) :
  pairwise R (map g l) -> pairwise R (map g (filter f l)).
Proof.
  unfold pairwise. induction l as [|a l IH]; simpl; intro H; [constructor|].
  inversion H as [|? ? Ha Hl]; subst.
  destruct (f a); simpl; [|apply IH; exact Hl].
  constructor; [|apply IH; exact Hl].
  rewrite Forall_map in Ha |- *. rewrite Forall_forall in Ha |- *.
  intros b Hb. apply Ha. apply filter_In in Hb. tauto.
Qed.

Lemma inside_in_canvas (p c d : rect) : inside p c -> inside c d -> inside p d.
Proof. unfold inside. intros Hp Hc. lra. Qed.

Lemma grid_placed_geometry (files : list file) (aw ah : Q) :
  0 < aw -> 0 < ah -> grid_fits (length files) aw ah ->
  pairwise disjoint (map grid_rect (Grid.arrange_all_images_on_single_page files aw ah)) /\
  Forall (fun p => inside (grid_rect p) (canvas aw ah))
         (Grid.arrange_all_images_on_single_page files aw ah).
Proof.
  intros Pw Ph Hfit. set (n := length files) in *.
  destruct (Nat.eq_dec n 0) as [E0|Hn].
  { unfold n in E0. destruct files; [|discriminate]. split; constructor. }
  assert (Hn1 : (1 <= n)%nat) by lia.
  rewrite grid_arrange_slots. fold n. unfold enumerate.
  destruct (slots_pairwise_disjoint (grid_cell n aw ah)
              (fun i a => option_map grid_rect (grid_slot n aw ah i a)) n) with
    (l := files) (s := 0%nat) as [D1 D2].
  { intros i a r Hi Hs. destruct (grid_slot n aw ah i a) as [p|] eqn:E; [|discriminate].
    injection Hs as <-. eapply grid_slot_inside; eassumption. }
  { intros i j Hij. apply grid_cells_disjoint; assumption. }
  { simpl. fold n. lia. }
  rewrite <- map_flat_map_olist in D1, D2.
  split; [exact D1|].
  rewrite Forall_map in D2. eapply Forall_impl; [|exact D2].
  intros p (i & Hi & Hp). eapply inside_in_canvas; [exact Hp|].
  apply grid_cell_in_canvas; [assumption|assumption|lia].
Qed.

Lemma spiral_placed_geometry (files : list file) (aw ah : Q) :
  0 < aw -> 0 < ah ->
  pairwise disjoint
    (map spiral_rect (Spiral.arrange_all_images_on_single_page files aw ah)) /\
  Forall (fun p => inside (spiral_rect p) (canvas aw ah))
         (Spiral.arrange_all_images_on_single_page files aw ah).
Proof.
  intros Pw Ph. set (n := length files) in *.
  destruct (Nat.eq_dec n 0) as [E0|Hn].
  { unfold n in E0. destruct files; [|discriminate]. split; constructor. }
  assert (Hn1 : (1 <= n)%nat) by lia.
  rewrite spiral_arrange_slots. fold n. unfold enumerate.
  destruct (slots_pairwise_disjoint (spiral_cell n aw ah)
              (fun i a => option_map spiral_rect (spiral_slot n aw ah i a)) n) with
    (l := files) (s := 0%nat) as [D1 D2].
  { intros i a r Hi Hs. destruct (spiral_slot n aw ah i a) as [p|] eqn:E; [|discriminate].
    injection Hs as <-. eapply spiral_slot_inside; eassumption. }
  { intros i j Hij. apply spiral_cells_disjoint; assumption. }
  { simpl. fold n. lia. }
  rewrite <- map_flat_map_olist in D1, D2.
  split; [exact D1|].
  rewrite Forall_map in D2. eapply Forall_impl; [|exact D2].
  intros p (i & Hi & Hp). eapply inside_in_canvas; [exact Hp|].
  apply spiral_cell_in_canvas; [assumption|assumption|assumption|lia].
Qed.

(** A rectangle of the arrangement, moved by the margin as it is drawn *)
Definition on_page (r : rect) : rect :=
  mkRect (MARGIN + rx r) (MARGIN + ry r) (rw r) (rh r).

Lemma on_page_disjoint (a b : rect) : disjoint a b -> disjoint (on_page a) (on_page b).
Proof. unfold disjoint, on_page. simpl. intro H. lra. Qed.

Lemma on_page_inside (r : rect) (aw ah : Q) :
  inside r (canvas aw ah) -> inside (on_page r) (page_area aw ah).
Proof. unfold inside, on_page, canvas, page_area. simpl. intro H. lra. Qed.

Lemma drawn_on_page {P : Type} (rect_of : P -> rect) (ok : P -> bool)
  (arr : list P) (aw ah : Q) :
  pairwise disjoint (map rect_of arr) ->
  Forall (fun p => inside (rect_of p) (canvas aw ah)) arr ->
  pairwise disjoint (map (fun p => on_page (rect_of p)) (filter ok arr)) /\
  Forall (fun r => inside r (page_area aw ah))
         (map (fun p => on_page (rect_of p)) (filter ok arr)).
Proof.
  intros Hd Hi. split.
  - apply (pairwise_map_impl disjoint rect_of (fun p => on_page (rect_of p))).
    + intros a b. apply on_page_disjoint.
    + apply pairwise_map_filter. exact Hd.
  - rewrite Forall_map. rewrite Forall_forall in Hi |- *.
    intros p Hp. apply filter_In in Hp. apply on_page_inside. apply Hi. tauto.
Qed.





(** ** What one page of the flow layout takes from the input *)


(** ** Termination of the page loop of the flow layout *)

Lemma flow_pdf_loop_page_count files A4H aw ah :
  forall fuel idx pn,
  (idx < length files)%nat -> (length files - idx <= fuel)%nat ->
  (1 <= length (pages_of (fst (Flow.pdf_loop fuel files A4H aw ah idx pn)))
     <= length files - idx)%nat.
Proof.
  induction fuel as [|fuel IH]; intros idx pn Hlt Hfuel; [lia|].
  rewrite pdf_loop_step by exact Hlt.
  pose proof (flow_page_no_show_page files A4H aw ah idx) as Hns.
  pose proof (flow_page_next files A4H aw ah idx) as Hnext.
  destruct (flow_page files A4H aw ah idx) as [page next]. cbn [fst snd] in *.
  destruct (Nat.ltb_spec next (length files)) as [Hmore|Hlast].
  - pose proof (IH next (pn + 1)%nat Hmore ltac:(lia)) as IH1.
    destruct (Flow.pdf_loop fuel files A4H aw ah next (pn + 1)) as [tr n].
    cbn [fst snd] in *.
    change (Print (ProcessingPage pn) :: page ++ ShowPage :: tr)
      with ((Print (ProcessingPage pn) :: page) ++ ShowPage :: tr)%list.
    rewrite pages_of_show_page by exact Hns. simpl length. lia.
  - rewrite (pdf_loop_done files A4H aw ah fuel next pn Hlast). cbn [fst snd].
    rewrite app_nil_r.
    rewrite (pages_of_no_show_page (Print (ProcessingPage pn) :: page)) by exact Hns.
    simpl. lia.
Qed.

(** X15: The page loop of the flow layout ends: every pass moves on by at least
    one file, so the document has at least one page and at most as many
    pages as there are files, and giving the loop more passes than there are
    files changes nothing. *)
Theorem flow_page_loop_terminates
  (A4_WIDTH A4_HEIGHT : Q) (f : file) (files : list file) :
  let n := length (f :: files) in
  let aw := A4_WIDTH - 2 * MARGIN in
  let ah := A4_HEIGHT - 2 * MARGIN in
  let tr := Flow.create_pdf_from_images (A4_WIDTH, A4_HEIGHT) (f :: files) in
  (1 <= length (pages_of tr) <= n)%nat /\
  (forall fuel, (n <= fuel)%nat ->
     Flow.pdf_loop fuel (f :: files) A4_HEIGHT aw ah 0 1
     = Flow.pdf_loop n (f :: files) A4_HEIGHT aw ah 0 1).
Proof.
  intros n aw ah tr. subst tr. split.
  - destruct (flow_create_pages A4_WIDTH A4_HEIGHT f files) as [Hp _].
    cbv zeta in Hp. rewrite Hp.
    pose proof (flow_pdf_loop_page_count (f :: files) A4_HEIGHT aw ah n 0 1
                  ltac:(simpl; lia) ltac:(unfold n; lia)) as H.
    unfold n in *. fold aw ah. lia.
  - intros fuel Hfuel. apply pdf_loop_fuel; unfold n in *; lia.
Qed.

Lemma flow_page_loop_terminates_witness :
  Flow.pdf_loop 9 four_and_corrupt (snd A4_points)
    (fst A4_points - 2 * MARGIN) (snd A4_points - 2 * MARGIN) 0 1
  = Flow.pdf_loop (length four_and_corrupt) four_and_corrupt (snd A4_points)
      (fst A4_points - 2 * MARGIN) (snd A4_points - 2 * MARGIN) 0 1.
Proof.
  refine (proj2 (flow_page_loop_terminates (fst A4_points) (snd A4_points)
                   (hd (corrupt_image "x") four_and_corrupt)
                   (tl four_and_corrupt)) 9%nat _).
  vm_compute. lia.
Defined.

(** ** Square images in the spiral touch *)

(** Two rectangles share a full edge. *)
Definition touching (r1 r2 : rect) : Prop :=
  (ry r1 == ry r2 /\ rh r1 == rh r2 /\
   (rx r1 + rw r1 == rx r2 \/ rx r2 + rw r2 == rx r1)) \/
  (rx r1 == rx r2 /\ rw r1 == rw r2 /\
   (ry r1 + rh r1 == ry r2 \/ ry r2 + rh r2 == ry r1)).

(** An image as wide as it is high, with at least one pixel *)
Definition is_square (f : file) : bool :=
  match size f with
  | Some (w, h) => (w =? h)%N && negb (w =? 0)%N
  | None => false
  end.

Lemma is_square_probe_ok f : is_square f = true -> probe_ok f = true.
Proof.
  unfold is_square, probe_ok. destruct (size f) as [[w h]|]; [|discriminate].
  intro H. apply andb_true_iff in H. destruct H as [E N].
  apply N.eqb_eq in E. subst h. now rewrite N.
Qed.

Lemma chain_nth (p : Z * Z) (l : list (Z * Z)) (d : Z * Z) :
  chain p l ->
  forall i, (S i < length (p :: l))%nat ->
  adjacent (nth i (p :: l) d) (nth (S i) (p :: l) d).
Proof.
  revert p. induction l as [|q l IH]; intros p H i Hi; simpl in Hi; [lia|].
  destruct H as [Hpq Hq]. destruct i as [|i]; [exact Hpq|].
  apply (IH q Hq i). simpl. lia.
Qed.

Lemma generate_spiral_positions_adjacent (n i : nat) :
  (S i < n)%nat ->
  adjacent (nth i (Spiral.generate_spiral_positions (Z.of_nat n)) (0, 0)%Z)
           (nth (S i) (Spiral.generate_spiral_positions (Z.of_nat n)) (0, 0)%Z).
Proof.
  intro Hi. destruct n as [|n]; [lia|].
  rewrite generate_spiral_positions_walk.
  apply chain_nth.
  - apply walk_chain. reflexivity.
  - simpl. rewrite walk_length. lia.
Qed.

Lemma slots_nth {A B : Type} (g : nat -> A -> option B) (l : list A) :
  forall s j,
  (forall i a, nth_error l i = Some a -> g (s + i)%nat a <> None) ->
  nth_error (flat_map (fun '(i, a) => olist (g i a)) (combine (seq s (length l)) l)) j
  = match nth_error l j with Some a => g (s + j)%nat a | None => None end.
Proof.
  induction l as [|a l IH]; intros s j H; simpl.
  - destruct j; reflexivity.
  - pose proof (H 0%nat a eq_refl) as H0. rewrite Nat.add_0_r in H0.
    destruct (g s a) as [b|] eqn:E; [|congruence]. simpl.
    destruct j as [|j]; simpl.
    + now rewrite Nat.add_0_r.
    + rewrite (IH (S s) j).
      * replace (S s + j)%nat with (s + S j)%nat by lia. reflexivity.
      * intros i a' Hi. replace (S s + i)%nat with (s + S i)%nat by lia.
        apply (H (S i) a'). exact Hi.
Qed.

Lemma centered_fit_square (c : rect) (img : file) (r : rect) (s : Q) :
  is_square img = true -> rh c = rw c ->
  centered_fit c img = Some (r, s) ->
  rx r == rx c /\ ry r == ry c /\ rw r == rw c /\ rh r == rh c.
Proof.
  intros Hsq Ec Hs. unfold centered_fit in Hs.
  destruct (calculate_image_dimensions img (rw c) (rh c)) as [[[w h] s']|] eqn:E;
    [|discriminate].
  injection Hs as <- <-. cbn [rx ry rw rh].
  apply calculate_image_dimensions_Some in E.
  destruct E as (ow & oh & Hsz & Hw0 & Hh0 & -> & -> & ->).
  unfold is_square in Hsq. rewrite Hsz in Hsq.
  apply andb_true_iff in Hsq. destruct Hsq as [Eq _].
  apply N.eqb_eq in Eq. subst oh.
  pose proof (N2Q_pos _ Hw0) as Pw.
  rewrite Ec.
  assert (Em : N2Q ow * Qmin (rw c / N2Q ow) (rw c / N2Q ow) == rw c).
  { rewrite Q.min_id. field. lra. }
  set (W := N2Q ow * Qmin (rw c / N2Q ow) (rw c / N2Q ow)) in *.
  clearbody W. destruct c as [cx cy cw ch]. cbn [rx ry rw rh] in *.
  clear -Em. split; [rewrite Em; field|]. split; [rewrite Em; field|]. split; exact Em.
Qed.

Lemma spiral_slot_square n aw ah i img p :
  is_square img = true ->
  spiral_slot n aw ah i img = Some p ->
  let c := spiral_cell n aw ah i in
  Spiral.x p == rx c /\ Spiral.y p == ry c /\
  Spiral.width p == rw c /\ Spiral.height p == rh c.
Proof.
  intros Hsq Hs c. unfold spiral_slot in Hs. fold c in Hs.
  destruct (centered_fit c img) as [[r s]|] eqn:E; [|discriminate].
  injection Hs as <-. cbn [Spiral.x Spiral.y Spiral.width Spiral.height].
  exact (centered_fit_square c img r s Hsq eq_refl E).
Qed.


